(** * A shallow embedding of [multi.py] (DiagnosticSystem) of DiagTCM.

    Python sets of symptom names are modelled as lists of strings (the
    iteration order of a Python set is left to the list order); scores are
    real numbers; exceptions are the [exn] alternative of a small error
    monad; numpy's global random generator is explicit state, threaded by
    the state-and-error monad [St]. *)

From Stdlib Require Import Ascii String List Bool Arith ZArith Lia Reals Lra Permutation.
Import ListNotations.
Open Scope string_scope.
Open Scope list_scope.

(** ** Python values *)

Definition symptom := string.

(** Python exceptions that the module can raise. *)
Inductive exn :=
| ValueError (msg : string)
| ZeroDivisionError.

(** Computations that may raise ([Res]) ... *)
Definition Res (A : Type) := (exn + A)%type.
Definition ok {A} (a : A) : Res A := inr a.
Definition raise {A} (e : exn) : Res A := inl e.
Definition rbind {A B} (m : Res A) (k : A -> Res B) : Res B :=
  match m with inl e => inl e | inr a => k a end.
Notation "x <- m ;; k" := (rbind m (fun x => k))
  (at level 61, m at next level, right associativity).

(** ... a [for] loop with an accumulator, in that monad ... *)
Fixpoint rfold {A B} (f : B -> A -> Res B) (l : list A) (b : B) : Res B :=
  match l with
  | [] => ok b
  | x :: t => b' <- f b x ;; rfold f t b'
  end.

(** ... and a list comprehension [[f(x) for x in l]]. *)
Fixpoint rmap {A B} (f : A -> Res B) (l : list A) : Res (list B) :=
  match l with
  | [] => ok []
  | x :: t => y <- f x ;; ys <- rmap f t ;; ok (y :: ys)
  end.

(** ** Sets of symptoms *)

Definition mem (x : symptom) (s : list symptom) : bool :=
  existsb (String.eqb x) s.

(** [a | b] *)
Definition set_union (a b : list symptom) : list symptom :=
  a ++ filter (fun x => negb (mem x a)) (nodup string_dec b).

(** [a - b] *)
Definition set_diff (a b : list symptom) : list symptom :=
  filter (fun x => negb (mem x b)) a.

(** [a & b] *)
Definition set_inter (a b : list symptom) : list symptom :=
  filter (fun x => mem x a) b.

(** [set(l)] *)
Definition py_set (l : list symptom) : list symptom := nodup string_dec l.

(** [s.remove(x)] on a set. *)
Definition set_remove (x : symptom) (s : list symptom) : list symptom :=
  filter (fun y => negb (String.eqb x y)) s.

(** ** The catalog: a dict disease name -> set of symptoms *)

Definition catalog := list (string * list symptom).

(** [self.all_symptoms = set().union( *disease_symptoms.values())] *)
Definition all_symptoms (cat : catalog) : list symptom :=
  nodup string_dec (concat (map snd cat)).

(** [_get_candidate_diseases] *)
Definition get_candidate_diseases (cat : catalog) (current : list symptom)
  : catalog :=
  filter (fun '(_, syms) =>
            match set_inter current syms with [] => false | _ => true end) cat.

(** ** Real-number operations of Python that may raise *)

Open Scope R_scope.

(** [x / y] on Python numbers. *)
Definition py_div (x y : R) : Res R :=
  if Req_EM_T y 0 then raise ZeroDivisionError else ok (x / y).

(** [math.log2(x)] *)
Definition log2 (x : R) : Res R :=
  if Rlt_dec 0 x then ok (ln x / ln 2)
  else raise (ValueError "math domain error").

Definition Rgtb (x y : R) : bool := if Rlt_dec y x then true else false.

(** ** [get_disease_match_scores] *)

Definition match_rate (current syms : list symptom) : R :=
  let match_count := length (set_inter current syms) in
  let total_count := length syms in
  if (0 <? total_count)%nat then INR match_count / INR total_count else 0.

Definition get_disease_match_scores (cat : catalog) (current : list symptom)
  : list (string * R) :=
  map (fun '(d, syms) => (d, match_rate current syms)) cat.

(** dict lookup *)
Fixpoint lookup {V} (k : string) (m : list (string * V)) : option V :=
  match m with
  | [] => None
  | (k', v) :: t => if String.eqb k k' then Some v else lookup k t
  end.

(** ** ScoringEngine *)

(** [itertools.combinations(l, r)], in its lexicographic order. *)
Fixpoint combinations {A} (l : list A) (r : nat) : list (list A) :=
  match r with
  | O => [[]]
  | S r' =>
      match l with
      | [] => []
      | x :: t => map (cons x) (combinations t r') ++ combinations t r
      end
  end.

(** [groups[key].append(disease)], the dict [groups] keeping insertion order. *)
Fixpoint group_insert (key : list bool) (d : string)
  (groups : list (list bool * list string)) : list (list bool * list string) :=
  match groups with
  | [] => [(key, [d])]
  | (k, ds) :: t =>
      if list_eq_dec bool_dec k key then (k, ds ++ [d]) :: t
      else (k, ds) :: group_insert key d t
  end.

(** [_split_by_symptoms] *)
Definition split_by_symptoms (syms : list symptom) (cands : catalog)
  : list (list string) :=
  map snd (fold_left (fun groups '(d, ds) =>
                        group_insert (map (fun s => mem s ds) syms) d groups)
             cands []).

(** [_calculate_total_information_gain] *)
Definition calculate_total_information_gain (syms : list symptom) (cands : catalog)
  : Res R :=
  if (length cands =? 0)%nat then ok 0 else
  initial_entropy <- log2 (INR (length cands)) ;;
  let subgroups := split_by_symptoms syms cands in
  let total := INR (length cands) in
  conditional_entropy <-
    rfold (fun ce subgroup =>
             prob <- py_div (INR (length subgroup)) total ;;
             if Rlt_dec 0 prob then (l <- log2 prob ;; ok (ce - prob * l))
             else ok ce) subgroups 0 ;;
  ok (initial_entropy - conditional_entropy).

(** [_calculate_coverage_score] *)
Definition calculate_coverage_score (syms : list symptom) (cands : catalog) : Res R :=
  total_coverage <-
    rfold (fun acc '(_, ds) =>
             coverage <- py_div (INR (length (set_inter syms ds))) (INR (length ds)) ;;
             ok (acc + coverage)) cands 0 ;;
  match cands with
  | [] => ok 0
  | _ => py_div total_coverage (INR (length cands))
  end.

(** [_calculate_mutual_information], over the whole catalog. *)
Definition calculate_mutual_information (cat : catalog) (s1 s2 : symptom) : Res R :=
  let count_both := length (filter (fun '(_, ds) => mem s1 ds && mem s2 ds) cat) in
  let count_s1 := length (filter (fun '(_, ds) => mem s1 ds) cat) in
  let count_s2 := length (filter (fun '(_, ds) => mem s2 ds) cat) in
  let total := INR (length cat) in
  if (count_both =? 0)%nat then ok 0 else
  p_both <- py_div (INR count_both) total ;;
  p_s1 <- py_div (INR count_s1) total ;;
  p_s2 <- py_div (INR count_s2) total ;;
  if Req_EM_T p_both 0 then ok 0 else
  if Req_EM_T p_s1 0 then ok 0 else
  if Req_EM_T p_s2 0 then ok 0 else
  q <- py_div p_both (p_s1 * p_s2) ;;
  l <- log2 q ;;
  ok (p_both * l).

(** [_calculate_independence_score] *)
Definition calculate_independence_score (cat : catalog) (syms : list symptom) : Res R :=
  if (length syms <=? 1)%nat then ok 1 else
  mutual_info <-
    rfold (fun acc pair =>
             match pair with
             | [s1; s2] => mi <- calculate_mutual_information cat s1 s2 ;; ok (acc + mi)
             | _ => ok acc
             end) (combinations syms 2) 0 ;;
  py_div 1 (1 + mutual_info).

(** [_calculate_combined_score] *)
Definition calculate_combined_score (cat : catalog) (syms : list symptom) (cands : catalog)
  : Res R :=
  info_gain <- calculate_total_information_gain syms cands ;;
  coverage_score <- calculate_coverage_score syms cands ;;
  independence_score <- calculate_independence_score cat syms ;;
  ok (4/10 * info_gain + 4/10 * coverage_score + 2/10 * independence_score).

(** [_calculate_symptom_importance] *)
Definition calculate_symptom_importance (cat : catalog) (s : symptom)
  (current : list symptom) (cands : catalog) : Res R :=
  calculate_combined_score cat (set_union current [s]) cands.

(** ** Sorting by a key, as [sorted(l, key=..., reverse=True)] *)

Section Sorting.
Context {K A : Type} (gtb : K -> K -> bool).

(** Insert after every element whose key is not smaller: stable. *)
Fixpoint insert_desc (x : K * A) (l : list (K * A)) : list (K * A) :=
  match l with
  | [] => [x]
  | y :: t => if gtb (fst x) (fst y) then x :: y :: t else y :: insert_desc x t
  end.

Definition sort_desc (l : list (K * A)) : list (K * A) :=
  fold_left (fun acc x => insert_desc x acc) l [].

End Sorting.

(** [float('-inf')] is [None]: every score is greater. *)
Definition gt_best (score : R) (best : option R) : bool :=
  match best with None => true | Some b => Rgtb score b end.

Section Selectors.
Variable cat : catalog.
Variables (current : list symptom) (cands : catalog) (denied : list symptom).

(** [symptom_score], the importance halved for a denied symptom. *)
Definition symptom_score (s : symptom) : Res R :=
  score <- calculate_symptom_importance cat s current cands ;;
  ok (if mem s denied then score * (1/2) else score).

(** [sorted(l, key=lambda x: symptom_score(x), reverse=True)] *)
Definition sort_by_score (l : list symptom) : Res (list symptom) :=
  keys <- rmap symptom_score l ;;
  ok (map snd (sort_desc Rgtb (combine keys l))).

(** *** [_exhaustive_search] *)

Definition py_combinations (l : list symptom) (n : Z) : Res (list (list symptom)) :=
  if (n <? 0)%Z then raise (ValueError "r must be non-negative")
  else ok (combinations l (Z.to_nat n)).

Definition count_denied (combo : list symptom) : nat :=
  length (filter (fun s => mem s denied) combo).

(** The loop body's score of one combination. *)
Definition combo_score (combo : list symptom) : Res R :=
  score <- calculate_combined_score cat (set_union current (py_set combo)) cands ;;
  ok (score - INR (count_denied combo) * (2/10)).

Definition exhaustive_step (best : option R * option (list symptom)) (combo : list symptom)
  : Res (option R * option (list symptom)) :=
  score <- combo_score combo ;;
  if gt_best score (fst best) then ok (Some score, Some combo) else ok best.

Definition exhaustive_search (avail : list symptom) (n : Z) : Res (list symptom) :=
  sorted_symptoms <- sort_by_score avail ;;
  combos <- py_combinations sorted_symptoms n ;;
  best <- rfold exhaustive_step combos (None, None) ;;
  ok (match snd best with
      | Some ((_ :: _) as c) => py_set c
      | _ => []
      end).

(** *** [_greedy_selection] *)

(** [selected.add(s)] *)
Definition set_add (s : symptom) (sel : list symptom) : list symptom :=
  if mem s sel then sel else sel ++ [s].

(** [list.remove(s)]: the first occurrence. *)
Fixpoint list_remove (s : symptom) (l : list symptom) : list symptom :=
  match l with
  | [] => []
  | x :: t => if String.eqb s x then t else x :: list_remove s t
  end.

(** The inner [for symptom in symptoms_list] loop. *)
Definition greedy_pick (selected l : list symptom) : Res (option R * option symptom) :=
  rfold (fun best s =>
           score <- calculate_combined_score cat
                      (set_union (set_union current selected) [s]) cands ;;
           let score := if mem s denied then score * (1/2) else score in
           if gt_best score (fst best) then ok (Some score, Some s) else ok best)
        l (None, None).

(** The outer [for _ in range(n)] loop, with its [break]. *)
Fixpoint greedy_loop (fuel : nat) (selected l : list symptom)
  : Res (list symptom * list symptom) :=
  match fuel with
  | O => ok (selected, l)
  | S k =>
      match l with
      | [] => ok (selected, l)
      | _ =>
          best <- greedy_pick selected l ;;
          match snd best with
          | Some s =>
              (* [if best_symptom:] is false for the empty string *)
              if String.eqb s "" then greedy_loop k selected l
              else greedy_loop k (set_add s selected) (list_remove s l)
          | None => greedy_loop k selected l
          end
      end
  end.

(** The back-fill loop [for s in remaining: ... break ...]. *)
Fixpoint backfill (n : Z) (selected remaining : list symptom) : list symptom :=
  match remaining with
  | [] => selected
  | s :: t =>
      if (n <=? Z.of_nat (length selected))%Z then selected
      else backfill n (set_add s selected) t
  end.

Definition greedy_selection (avail : list symptom) (n : Z) : Res (list symptom) :=
  symptoms_list <- sort_by_score avail ;;
  r <- greedy_loop (Z.to_nat n) [] symptoms_list ;;
  let '(selected, symptoms_list) := r in
  if (Z.of_nat (length selected) <? n)%Z then
    remaining <- sort_by_score (filter (fun s => negb (mem s selected)) symptoms_list) ;;
    ok (backfill n selected remaining)
  else ok selected.

End Selectors.

(** ** numpy's global generator, as explicit state *)

(** The state [G] of [np.random] and its two draws: raw bits (an index
    below [k] is their value modulo [k]; which index a draw yields is left
    to the generator) and [np.random.random()]. *)
Class Rng (G : Type) := {
  rng_bits : G -> nat * G;
  rng_random : G -> R * G
}.

Definition St (G A : Type) := G -> Res (A * G).
Definition sret {G A} (a : A) : St G A := fun g => ok (a, g).
Definition sbind {G A B} (m : St G A) (k : A -> St G B) : St G B :=
  fun g => match m g with inl e => inl e | inr (a, g') => k a g' end.
Definition slift {G A} (m : Res A) : St G A :=
  fun g => match m with inl e => inl e | inr a => ok (a, g) end.
Definition sraise {G A} (e : exn) : St G A := fun _ => inl e.
Notation "x <-- m ;;; k" := (sbind m (fun x => k))
  (at level 61, m at next level, right associativity).

Fixpoint sfold {G A B} (f : B -> A -> St G B) (l : list A) (b : B) : St G B :=
  match l with
  | [] => sret b
  | x :: t => b' <-- f b x ;;; sfold f t b'
  end.

Fixpoint smap {G A B} (f : A -> St G B) (l : list A) : St G (list B) :=
  match l with
  | [] => sret []
  | x :: t => y <-- f x ;;; ys <-- smap f t ;;; sret (y :: ys)
  end.

(** [[m for _ in range(k)]] *)
Fixpoint srepeat {G A} (k : nat) (m : St G A) : St G (list A) :=
  match k with
  | O => sret []
  | S k' => x <-- m ;;; xs <-- srepeat k' m ;;; sret (x :: xs)
  end.

(** [for _ in range(k): s = f(s)] *)
Fixpoint siter {G A} (k : nat) (f : A -> St G A) (a : A) : St G A :=
  match k with
  | O => sret a
  | S k' => a' <-- f a ;;; siter k' f a'
  end.

(** List slots: [l[k] = v] and [l[i], l[j] = l[j], l[i]]. *)
Fixpoint upd {A} (l : list A) (k : nat) (v : A) : list A :=
  match l, k with
  | [], _ => []
  | _ :: t, O => v :: t
  | x :: t, S k' => x :: upd t k' v
  end.

Definition swap {A} (l : list A) (i j : nat) : list A :=
  match nth_error l i, nth_error l j with
  | Some x, Some y => upd (upd l i y) j x
  | _, _ => l
  end.

(** [l[:n]] *)
Definition py_take {A} (l : list A) (n : Z) : list A :=
  if (0 <=? n)%Z then firstn (Z.to_nat n) l
  else firstn (length l - Z.to_nat (- n)) l.

Section Random.
Context {G : Type} `{Rng G}.

(** A draw below [k]. *)
Definition rand_below (k : nat) : St G nat :=
  fun g => let (r, g') := rng_bits g in ok (r mod k, g').

Definition rand_random : St G R := fun g => ok (rng_random g).

(** [np.random.shuffle(l)]: for [i] from [len(l) - 1] down to 1, swap
    [l[i]] with [l[j]] for a [j] drawn in [0, i]. *)
Fixpoint shuffle_from {A} (i : nat) (l : list A) : St G (list A) :=
  match i with
  | O => sret l
  | S i' => j <-- rand_below (S i) ;;; shuffle_from i' (swap l i j)
  end.

Definition shuffle {A} (l : list A) : St G (list A) :=
  shuffle_from (length l - 1) l.

(** [np.random.choice(l)] *)
Definition choice (l : list symptom) : St G symptom :=
  match l with
  | [] => sraise (ValueError "'a' cannot be empty unless no samples are taken")
  | x :: _ => i <-- rand_below (length l) ;;; sret (nth i l x)
  end.

(** [np.random.choice(l, n, replace=False)]: the first [n] entries of a
    random permutation of the indices. *)
Definition choice_noreplace (l : list symptom) (n : Z) : St G (list symptom) :=
  if (length l =? 0)%nat && negb (n =? 0)%Z then
    sraise (ValueError "'a' cannot be empty unless no samples are taken")
  else if (Z.of_nat (length l) <? n)%Z then
    sraise (ValueError "Cannot take a larger sample than population when 'replace=False'")
  else if (n <? 0)%Z then sraise (ValueError "negative dimensions are not allowed")
  else idx <-- shuffle (seq 0 (length l)) ;;;
       sret (map (fun i => nth i l "") (firstn (Z.to_nat n) idx)).

(** [np.random.choice(k, size)], with replacement. *)
Definition choice_indices (k size : nat) : St G (list nat) :=
  if (k =? 0)%nat then
    sraise (ValueError "a must be greater than 0 unless no samples are taken")
  else srepeat size (rand_below k).

End Random.

(** ** GeneticSelector: [_genetic_algorithm] and its operators *)

(** [np.argmax]: the first maximal position. *)
Fixpoint argmax_from (i : nat) (best : nat * R) (l : list R) : nat :=
  match l with
  | [] => fst best
  | v :: t => argmax_from (S i) (if Rgtb v (snd best) then (i, v) else best) t
  end.

Definition argmax (l : list R) : nat :=
  match l with [] => 0%nat | v :: t => argmax_from 1 (0%nat, v) t end.

(** [np.argsort], ascending; numpy's default sort is not stable, this
    model orders equal fitnesses by position. *)
Definition argsort (l : list R) : list nat :=
  map snd (sort_desc (fun a b => Rgtb b a) (combine l (seq 0 (length l)))).

(** [l[-k:]] *)
Definition last_k {A} (k : nat) (l : list A) : list A := skipn (length l - k) l.

(** [max(l, key=f)]: the first element of greatest key. *)
Definition py_max_by {A} (f : A -> Res R) (l : list A) : Res A :=
  match l with
  | [] => raise (ValueError "max() arg is an empty sequence")
  | x :: t =>
      fx <- f x ;;
      r <- rfold (fun best y =>
                    fy <- f y ;;
                    ok (if Rgtb fy (snd best) then (y, fy) else best)) t (x, fx) ;;
      ok (fst r)
  end.

Section Genetic.
Context {G : Type} `{Rng G}.
Variable cat : catalog.
Variables (current : list symptom) (cands : catalog) (denied : list symptom).

Definition individual := list symptom.

(** [_tournament_select], [tournament_size = 3] *)
Definition tournament_select (population : list individual) (fitness_scores : list R)
  : St G individual :=
  indices <-- choice_indices (length population) 3 ;;;
  let tournament_fitness := map (fun i => nth i fitness_scores 0) indices in
  let winner_idx := nth (argmax tournament_fitness) indices 0%nat in
  sret (nth winner_idx population []).

(** The [while len(combined) < n] loop of [_crossover]; it adds one
    symptom per round, so [n] rounds are enough. *)
Fixpoint crossover_fill (fuel : nat) (u : list symptom) (n : Z) (combined : list symptom)
  : St G (list symptom) :=
  match fuel with
  | O => sret combined
  | S k =>
      if (Z.of_nat (length combined) <? n)%Z then
        match set_diff u (py_set combined) with
        | [] => sret combined
        | remaining => s <-- choice remaining ;;; crossover_fill k u n (combined ++ [s])
        end
      else sret combined
  end.

(** [_crossover]: both children are [set(combined)]. *)
Definition crossover (parent1 parent2 : individual) (n : Z)
  : St G (individual * individual) :=
  let combined := set_union parent1 parent2 in
  combined <-- (if (n <? Z.of_nat (length combined))%Z then
                  sh <-- shuffle combined ;;; sret (py_take sh n)
                else sret combined) ;;;
  combined <-- crossover_fill (Z.to_nat n) (set_union parent1 parent2) n combined ;;;
  sret (py_set combined, py_set combined).

(** [_mutate]; the child it changes in place is a fresh set. *)
Definition mutate (ind : individual) (avail : list symptom) (mutation_rate : R)
  : St G individual :=
  r <-- rand_random ;;;
  if Rlt_dec r mutation_rate then
    match set_diff avail ind with
    | [] => sret ind
    | available =>
        symptom_to_replace <-- choice ind ;;;
        new_symptom <-- choice available ;;;
        sret (set_add new_symptom (set_remove symptom_to_replace ind))
    end
  else sret ind.

(** [_local_search] *)
Definition local_search (ind : individual) : St G individual :=
  best_score <-- slift (calculate_combined_score cat (set_union current ind) cands) ;;;
  best <-- sfold (fun best s =>
                    let new_ind := set_remove s ind in
                    match set_diff (set_diff (all_symptoms cat) current) ind with
                    | [] => sret best
                    | remaining =>
                        new_symptom <-- choice remaining ;;;
                        let new_ind := set_add new_symptom new_ind in
                        score <-- slift (calculate_combined_score cat
                                           (set_union current new_ind) cands) ;;;
                        if Rgtb score (snd best) then sret (new_ind, score) else sret best
                    end) ind (ind, best_score) ;;;
  sret (fst best).

(** [fitness] *)
Definition fitness (ind : individual) : Res R :=
  base_score <- calculate_combined_score cat (set_union current ind) cands ;;
  ok (base_score - 2/10 * INR (count_denied denied ind)).

Definition population_size : nat := 50.
Definition generations : nat := 30.
Definition elite_size : nat := 5.

(** The breeding loop [for _ in range((population_size - elite_size) // 2)]. *)
Fixpoint breed (k : nat) (population : list individual) (fitness_scores : list R)
  (avail : list symptom) (n : Z) (mutation_rate : R) (acc : list individual)
  : St G (list individual) :=
  match k with
  | O => sret acc
  | S k' =>
      parent1 <-- tournament_select population fitness_scores ;;;
      parent2 <-- tournament_select population fitness_scores ;;;
      children <-- crossover parent1 parent2 n ;;;
      child1 <-- mutate (fst children) avail mutation_rate ;;;
      child2 <-- mutate (snd children) avail mutation_rate ;;;
      breed k' population fitness_scores avail n mutation_rate (acc ++ [child1; child2])
  end.

(** One generation, on the population and the mutation rate. *)
Definition generation (avail : list symptom) (n : Z) (st : list individual * R)
  : St G (list individual * R) :=
  let '(population, mutation_rate) := st in
  fitness_scores <-- slift (rmap fitness population) ;;;
  let elite_individuals :=
    map (fun i => nth i population []) (last_k elite_size (argsort fitness_scores)) in
  new_population <-- breed ((population_size - elite_size) / 2) population fitness_scores
                           avail n mutation_rate elite_individuals ;;;
  let mutation_rate := Rmax (1/100) (mutation_rate * (95/100)) in
  population <-- smap local_search new_population ;;;
  sret (population, mutation_rate).

Definition genetic_algorithm (avail : list symptom) (n : Z) : St G (list symptom) :=
  let remaining_list := avail in
  population <-- srepeat population_size
                   (ind <-- choice_noreplace remaining_list n ;;; sret (py_set ind)) ;;;
  st <-- siter generations (generation avail n) (population, 1/10) ;;;
  slift (py_max_by fitness (fst st)).

End Genetic.

(** ** DiagnosticSystem: [calculate_next_n_symptoms] *)

Definition calculate_next_n_symptoms {G} `{Rng G} (cat : catalog) (current : list symptom)
  (n : Z) (method : string) (denied_symptoms : option (list symptom))
  : St G (list symptom) :=
  let denied := match denied_symptoms with None => [] | Some d => d end in
  let cands := get_candidate_diseases cat current in
  let avail := set_diff (all_symptoms cat) current in
  if (Z.of_nat (length avail) <? n)%Z then sret avail
  else if method =? "greedy" then slift (greedy_selection cat current cands denied avail n)
  else if method =? "exhaustive" then slift (exhaustive_search cat current cands denied avail n)
  else if method =? "genetic" then genetic_algorithm cat current cands denied avail n
  else sraise (ValueError "Unknown method").

(** ** Concrete inputs *)

(** A generator for concrete runs: the raw draws count up. *)
#[local] Instance counter_rng : Rng nat := {
  rng_bits g := (g, S g);
  rng_random g := (0, S g)
}.

(** The catalog of the spec's worked scenario. *)
Definition example_catalog : catalog :=
  [("A", ["x"; "y"]); ("B", ["y"; "z"]); ("C", ["x"; "z"; "w"])].

(** The claim side of the exhaustive search: the objective
    [CombinedScore(confirmed ∪ c, candidates) - 0.2 * |c ∩ denied|]. *)
Definition penalized_score (cat : catalog) (current denied c : list symptom) : Res R :=
  s <- calculate_combined_score cat (set_union current c) (get_candidate_diseases cat current) ;;
  ok (s - 2/10 * INR (length (filter (fun x => mem x denied) c))).

(** A raised exception other than [ValueError("Unknown method")], and
    computations that raise no such exception. *)
Definition not_unknown (e : exn) : Prop := e <> ValueError "Unknown method".

Definition rsafe {A} (m : Res A) : Prop := forall e, m = inl e -> not_unknown e.
Definition ssafe {G A} (m : St G A) : Prop := forall g e, m g = inl e -> not_unknown e.

(** ** [final.py]: one round of [multi_round_diagnosis] *)

(** [s.split(sep)] for a one-character separator: empty pieces are kept. *)
Fixpoint py_split (sep : Ascii.ascii) (s : string) : list string :=
  match s with
  | EmptyString => [EmptyString]
  | String c t =>
      if Ascii.eqb c sep then EmptyString :: py_split sep t
      else match py_split sep t with
           | w :: ws => String c w :: ws
           | [] => [String c EmptyString]
           end
  end.

Section Round.
(** [not user_input.strip()]: the input is empty or all whitespace, by
    Python's Unicode whitespace table, which is left abstract. *)
Variable is_blank : string -> bool.

(** [set(user_input.split(',')) if user_input.strip() else set()] *)
Definition parse_confirmed (user_input : string) : list symptom :=
  if is_blank user_input then [] else py_set (py_split ","%char user_input).

End Round.

(** [for symptom in next_symptoms: current_symptoms.add(symptom) if it was
    confirmed, else denied_symptoms.add(symptom)] *)
Definition record_answers (next_symptoms confirmed : list symptom)
  (st : list symptom * list symptom) : list symptom * list symptom :=
  fold_left (fun '(cur, den) s =>
               if mem s confirmed then (set_add s cur, den) else (cur, set_add s den))
            next_symptoms st.

(** [for disease, score in scores.items(): if score >= probability_threshold:]
    the disease the round stops at, if any. *)
Fixpoint diagnosis_reached (probability_threshold : R) (scores : list (string * R))
  : option (string * R) :=
  match scores with
  | [] => None
  | (d, sc) :: t =>
      if Rle_dec probability_threshold sc then Some (d, sc)
      else diagnosis_reached probability_threshold t
  end.

(** [Q] holds of every value the computation [m] returns. *)
Definition sholds {G A} (m : St G A) (Q : A -> Prop) : Prop :=
  forall g a g', m g = inr (a, g') -> Q a.

(** An individual of the genetic search: [k] distinct symptoms of [pool]. *)
Definition well_sized (k : nat) (pool ind : list symptom) : Prop :=
  NoDup ind /\ length ind = k /\ incl ind pool.

(** * Properties *)

(** ** Sets as lists *)

Lemma mem_In (x : symptom) (s : list symptom) : mem x s = true <-> In x s.
Proof.
  unfold mem. rewrite existsb_exists. split.
  - intros [y [Hy Heq]]. apply String.eqb_eq in Heq. now subst.
  - intros Hx. exists x. split; [exact Hx | apply String.eqb_refl].
Qed.

Lemma mem_notIn (x : symptom) (s : list symptom) : mem x s = false <-> ~ In x s.
Proof.
  rewrite <- mem_In. destruct (mem x s); split; congruence.
Qed.

Lemma length_filter_le {A} (f : A -> bool) (l : list A) :
  (length (filter f l) <= length l)%nat.
Proof.
  induction l as [|x t IH]; simpl; [lia|]. destruct (f x); simpl; lia.
Qed.

Lemma length_filter_mono {A} (f g : A -> bool) (l : list A) :
  (forall x, In x l -> f x = true -> g x = true) ->
  (length (filter f l) <= length (filter g l))%nat.
Proof.
  induction l as [|x t IH]; intros Hfg; simpl; [lia|].
  assert (IH' := IH (fun y Hy => Hfg y (or_intror Hy))).
  destruct (f x) eqn:Ef.
  - rewrite (Hfg x (or_introl eq_refl) Ef). simpl. lia.
  - destruct (g x); simpl; lia.
Qed.

(** ** [get_disease_match_scores] *)

Lemma lookup_match_scores (cat : catalog) (current : list symptom) (d : string)
  (syms : list symptom) :
  lookup d cat = Some syms ->
  lookup d (get_disease_match_scores cat current) = Some (match_rate current syms).
Proof.
  induction cat as [|[d' s'] t IH]; simpl; [discriminate|].
  destruct (String.eqb d d'); [congruence | exact IH].
Qed.

Lemma match_scores_keys (cat : catalog) (current : list symptom) :
  map fst (get_disease_match_scores cat current) = map fst cat.
Proof.
  induction cat as [|[d s] t IH]; simpl; [reflexivity | now rewrite IH].
Qed.

Lemma match_rate_bounds (current syms : list symptom) :
  0 <= match_rate current syms <= 1.
Proof.
  unfold match_rate. destruct (0 <? length syms)%nat eqn:E; [|lra].
  apply Nat.ltb_lt in E.
  assert (Hpos : 0 < INR (length syms)) by (apply lt_0_INR; exact E).
  assert (Hle : INR (length (set_inter current syms)) <= INR (length syms))
    by (apply le_INR; apply length_filter_le).
  assert (H0 := pos_INR (length (set_inter current syms))).
  split.
  - unfold Rdiv. apply Rmult_le_pos; [exact H0|].
    left. apply Rinv_0_lt_compat. exact Hpos.
  - apply (Rmult_le_reg_r (INR (length syms))); [exact Hpos|].
    unfold Rdiv. rewrite Rmult_assoc, Rinv_l by lra. lra.
Qed.

Lemma lookup_match_scores_eq (cat : catalog) (current : list symptom) (d : string) :
  lookup d (get_disease_match_scores cat current) =
  option_map (match_rate current) (lookup d cat).
Proof.
  induction cat as [|[d' s'] t IH]; simpl; [reflexivity|].
  destruct (String.eqb d d'); [reflexivity | exact IH].
Qed.

(** C7: the scores map every catalog disease, and only those, to
    [|confirmed ∩ symptoms(d)| / |symptoms(d)|] (0 for an empty symptom
    set), a number in [0, 1] that is 0 when nothing is confirmed. *)
Theorem get_disease_match_scores_rates (cat : catalog) (current : list symptom)
  (d : string) (syms : list symptom) :
  lookup d cat = Some syms ->
  map fst (get_disease_match_scores cat current) = map fst cat /\
  exists v, lookup d (get_disease_match_scores cat current) = Some v /\
    v = (if (length syms =? 0)%nat then 0
         else INR (length (set_inter current syms)) / INR (length syms)) /\
    0 <= v <= 1 /\
    (current = [] -> v = 0).
Proof.
  intros Hd. split; [apply match_scores_keys|].
  exists (match_rate current syms). split; [now apply lookup_match_scores|].
  split; [|split; [apply match_rate_bounds|]].
  - unfold match_rate. destruct (length syms) as [|k]; reflexivity.
  - intros ->. unfold match_rate.
    replace (set_inter [] syms) with (@nil symptom)
      by (unfold set_inter; clear Hd; induction syms as [|a t IHt]; [reflexivity | exact IHt]).
    destruct (0 <? length syms)%nat; [simpl; unfold Rdiv; ring | reflexivity].
Qed.

Lemma get_disease_match_scores_rates_witness :
  lookup "C" example_catalog = Some ["x"; "z"; "w"] /\
  map fst (get_disease_match_scores example_catalog ["x"]) = map fst example_catalog /\
  exists v, lookup "C" (get_disease_match_scores example_catalog ["x"]) = Some v /\
    v = (if (length ["x"; "z"; "w"] =? 0)%nat then 0
         else INR (length (set_inter ["x"] ["x"; "z"; "w"])) / INR (length ["x"; "z"; "w"])) /\
    0 <= v <= 1 /\
    (["x"] = [] -> v = 0).
Proof.
  split; [reflexivity|].
  apply (get_disease_match_scores_rates example_catalog ["x"] "C" ["x"; "z"; "w"]).
  reflexivity.
Defined.

(** C6: the match rate of every disease is monotone in the confirmed set. *)
Theorem get_disease_match_scores_monotone (cat : catalog) (current current' : list symptom)
  (d : string) (v v' : R) :
  incl current current' ->
  lookup d (get_disease_match_scores cat current) = Some v ->
  lookup d (get_disease_match_scores cat current') = Some v' ->
  v <= v'.
Proof.
  intros Hincl Hv Hv'. rewrite lookup_match_scores_eq in Hv, Hv'.
  destruct (lookup d cat) as [syms|]; simpl in Hv, Hv'; [|discriminate].
  injection Hv as <-. injection Hv' as <-.
  unfold match_rate. destruct (0 <? length syms)%nat eqn:E; [|lra].
  apply Nat.ltb_lt in E.
  apply Rmult_le_compat_r.
  - left. apply Rinv_0_lt_compat. now apply lt_0_INR.
  - apply le_INR. apply length_filter_mono.
    intros x _ Hx. apply mem_In. apply Hincl. now apply mem_In.
Qed.

Lemma get_disease_match_scores_monotone_witness :
  incl ["x"] ["x"; "z"] /\
  lookup "C" (get_disease_match_scores example_catalog ["x"]) =
    Some (match_rate ["x"] ["x"; "z"; "w"]) /\
  lookup "C" (get_disease_match_scores example_catalog ["x"; "z"]) =
    Some (match_rate ["x"; "z"] ["x"; "z"; "w"]) /\
  match_rate ["x"] ["x"; "z"; "w"] <= match_rate ["x"; "z"] ["x"; "z"; "w"].
Proof.
  assert (Hincl : incl ["x"] ["x"; "z"]) by (intros a Ha; simpl in *; tauto).
  split; [exact Hincl|]. split; [reflexivity|]. split; [reflexivity|].
  apply (get_disease_match_scores_monotone example_catalog ["x"] ["x"; "z"] "C");
    [exact Hincl | reflexivity | reflexivity].
Defined.

(** C9: with no candidate disease, information gain and coverage are 0;
    the zero checks keep [log2] and the divisions from raising. *)
Theorem scoring_empty_candidates (syms : list symptom) :
  calculate_total_information_gain syms [] = ok 0 /\
  calculate_coverage_score syms [] = ok 0.
Proof. split; reflexivity. Qed.

(** C10: omitting the denied set is the same as passing the empty set. *)
Theorem calculate_next_n_symptoms_denied_default {G} `{Rng G} (cat : catalog)
  (current : list symptom) (n : Z) (method : string) (g : G) :
  calculate_next_n_symptoms cat current n method None g =
  calculate_next_n_symptoms cat current n method (Some []) g.
Proof. reflexivity. Qed.

(** ** Where ["Unknown method"] can come from *)


Lemma rsafe_ok {A} (a : A) : rsafe (ok a).
Proof. intros e He. discriminate. Qed.

Lemma rsafe_raise {A} (e : exn) : not_unknown e -> rsafe (A:=A) (raise e).
Proof. intros He e' Heq. now injection Heq as <-. Qed.

Lemma rsafe_bind {A B} (m : Res A) (k : A -> Res B) :
  rsafe m -> (forall a, rsafe (k a)) -> rsafe (rbind m k).
Proof.
  intros Hm Hk e. destruct m as [e'|a]; simpl.
  - intros Heq. injection Heq as <-. now apply Hm.
  - apply Hk.
Qed.

Lemma rsafe_rfold {A B} (f : B -> A -> Res B) (l : list A) (b : B) :
  (forall b x, rsafe (f b x)) -> rsafe (rfold f l b).
Proof.
  intros Hf. revert b. induction l as [|x t IH]; intros b; simpl.
  - apply rsafe_ok.
  - apply rsafe_bind; [apply Hf | intros b'; apply IH].
Qed.

Lemma rsafe_rmap {A B} (f : A -> Res B) (l : list A) :
  (forall x, rsafe (f x)) -> rsafe (rmap f l).
Proof.
  intros Hf. induction l as [|x t IH]; simpl.
  - apply rsafe_ok.
  - apply rsafe_bind; [apply Hf | intros y].
    apply rsafe_bind; [exact IH | intros ys; apply rsafe_ok].
Qed.

Lemma ssafe_ret {G A} (a : A) : ssafe (G:=G) (sret a).
Proof. intros g e He. discriminate. Qed.

Lemma ssafe_raise {G A} (e : exn) : not_unknown e -> ssafe (G:=G) (A:=A) (sraise e).
Proof. intros He g e' Heq. unfold sraise in Heq. now injection Heq as <-. Qed.

Lemma ssafe_bind {G A B} (m : St G A) (k : A -> St G B) :
  ssafe m -> (forall a, ssafe (k a)) -> ssafe (sbind m k).
Proof.
  intros Hm Hk g e. unfold sbind. destruct (m g) as [e'|[a g']] eqn:Em.
  - intros Heq. injection Heq as <-. exact (Hm g e' Em).
  - apply Hk.
Qed.

Lemma ssafe_lift {G A} (m : Res A) : rsafe m -> ssafe (G:=G) (slift m).
Proof.
  intros Hm g e. unfold slift. destruct m as [e'|a].
  - intros Heq. injection Heq as <-. now apply Hm.
  - discriminate.
Qed.

Lemma ssafe_sfold {G A B} (f : B -> A -> St G B) (l : list A) (b : B) :
  (forall b x, ssafe (f b x)) -> ssafe (sfold f l b).
Proof.
  intros Hf. revert b. induction l as [|x t IH]; intros b; simpl.
  - apply ssafe_ret.
  - apply ssafe_bind; [apply Hf | intros b'; apply IH].
Qed.

Lemma ssafe_smap {G A B} (f : A -> St G B) (l : list A) :
  (forall x, ssafe (f x)) -> ssafe (smap f l).
Proof.
  intros Hf. induction l as [|x t IH]; simpl.
  - apply ssafe_ret.
  - apply ssafe_bind; [apply Hf | intros y].
    apply ssafe_bind; [exact IH | intros ys; apply ssafe_ret].
Qed.

Lemma ssafe_srepeat {G A} (k : nat) (m : St G A) : ssafe m -> ssafe (srepeat k m).
Proof.
  intros Hm. induction k as [|k IH]; simpl.
  - apply ssafe_ret.
  - apply ssafe_bind; [exact Hm | intros x].
    apply ssafe_bind; [exact IH | intros xs; apply ssafe_ret].
Qed.

Lemma ssafe_siter {G A} (k : nat) (f : A -> St G A) (a : A) :
  (forall a, ssafe (f a)) -> ssafe (siter k f a).
Proof.
  intros Hf. revert a. induction k as [|k IH]; intros a; simpl.
  - apply ssafe_ret.
  - apply ssafe_bind; [apply Hf | intros a'; apply IH].
Qed.

Create HintDb safe.
#[local] Hint Resolve rsafe_ok ssafe_ret : safe.

(** Splits a computation into its steps; the leaves are [ok]/[raise]
    or lemmas of the [safe] database. *)
Ltac safe_step :=
  match goal with
  | |- rsafe (rbind _ _) => apply rsafe_bind; [|intro]
  | |- rsafe (rfold _ _ _) => apply rsafe_rfold; intros
  | |- rsafe (rmap _ _) => apply rsafe_rmap; intros
  | |- rsafe (raise _) => apply rsafe_raise; discriminate
  | |- ssafe (sbind _ _) => apply ssafe_bind; [|intro]
  | |- ssafe (sfold _ _ _) => apply ssafe_sfold; intros
  | |- ssafe (smap _ _) => apply ssafe_smap; intros
  | |- ssafe (srepeat _ _) => apply ssafe_srepeat
  | |- ssafe (siter _ _ _) => apply ssafe_siter; intros
  | |- ssafe (slift _) => apply ssafe_lift
  | |- ssafe (sraise _) => apply ssafe_raise; discriminate
  | |- rsafe (let '(_, _) := ?p in _) => destruct p
  | |- ssafe (let '(_, _) := ?p in _) => destruct p
  | |- rsafe (if ?b then _ else _) => destruct b
  | |- ssafe (if ?b then _ else _) => destruct b
  | |- rsafe (match ?x with _ => _ end) => destruct x
  | |- ssafe (match ?x with _ => _ end) => destruct x
  | |- _ => solve [eauto with safe]
  end.

Ltac safe := repeat safe_step.

Lemma rsafe_py_div (x y : R) : rsafe (py_div x y).
Proof. unfold py_div. safe. Qed.

Lemma rsafe_log2 (x : R) : rsafe (log2 x).
Proof. unfold log2. safe. Qed.
#[local] Hint Resolve rsafe_py_div rsafe_log2 : safe.

Lemma rsafe_combined_score (cat : catalog) (syms : list symptom) (cands : catalog) :
  rsafe (calculate_combined_score cat syms cands).
Proof.
  unfold calculate_combined_score, calculate_total_information_gain,
    calculate_coverage_score, calculate_independence_score,
    calculate_mutual_information.
  safe.
Qed.
#[local] Hint Resolve rsafe_combined_score : safe.

Lemma rsafe_sort_by_score cat current cands denied (l : list symptom) :
  rsafe (sort_by_score cat current cands denied l).
Proof. unfold sort_by_score, symptom_score, calculate_symptom_importance. safe. Qed.
#[local] Hint Resolve rsafe_sort_by_score : safe.

Lemma rsafe_exhaustive_search cat current cands denied (avail : list symptom) (n : Z) :
  rsafe (exhaustive_search cat current cands denied avail n).
Proof.
  unfold exhaustive_search, py_combinations, exhaustive_step, combo_score. safe.
Qed.

Lemma rsafe_greedy_loop cat current cands denied (fuel : nat) (selected l : list symptom) :
  rsafe (greedy_loop cat current cands denied fuel selected l).
Proof.
  revert selected l. induction fuel as [|k IH]; intros selected l; simpl.
  - apply rsafe_ok.
  - unfold greedy_pick. safe.
Qed.
#[local] Hint Resolve rsafe_greedy_loop : safe.

Lemma rsafe_greedy_selection cat current cands denied (avail : list symptom) (n : Z) :
  rsafe (greedy_selection cat current cands denied avail n).
Proof. unfold greedy_selection. safe. Qed.

Section RandomSafe.
Context {G : Type} `{Rng G}.

Lemma ssafe_rand_below (k : nat) : ssafe (G:=G) (rand_below k).
Proof. intros g e. unfold rand_below. destruct (rng_bits g). discriminate. Qed.

Lemma ssafe_rand_random : ssafe (G:=G) rand_random.
Proof. intros g e. discriminate. Qed.
#[local] Hint Resolve ssafe_rand_below ssafe_rand_random : safe.

Lemma ssafe_shuffle {A} (l : list A) : ssafe (G:=G) (shuffle l).
Proof.
  unfold shuffle. generalize (length l - 1)%nat as i. intros i. revert l.
  induction i as [|i IH]; intros l; simpl; safe.
Qed.
#[local] Hint Resolve ssafe_shuffle : safe.

Lemma ssafe_choice (l : list symptom) : ssafe (G:=G) (choice l).
Proof. unfold choice. safe. Qed.
#[local] Hint Resolve ssafe_choice : safe.

Lemma ssafe_genetic_algorithm cat current cands denied (avail : list symptom) (n : Z) :
  ssafe (G:=G) (genetic_algorithm cat current cands denied avail n).
Proof.
  assert (Hfill : forall fuel u combined, ssafe (G:=G) (crossover_fill fuel u n combined)).
  { induction fuel as [|k IH]; intros u combined; simpl; safe. }
  assert (Hbreed : forall k pop fs rate acc,
             ssafe (G:=G) (breed k pop fs avail n rate acc)).
  { induction k as [|k IH]; intros pop fs rate acc; simpl;
      unfold tournament_select, choice_indices, crossover, mutate; safe. }
  unfold genetic_algorithm, generation, choice_noreplace, local_search,
    py_max_by, fitness.
  safe.
Qed.

End RandomSafe.

(** ** Dispatch and the argument [n] *)

Lemma calculate_next_n_symptoms_dispatch {G} `{Rng G} (cat : catalog)
  (current : list symptom) (n : Z) (method : string)
  (denied_symptoms : option (list symptom)) (g : G) :
  (n <= Z.of_nat (length (set_diff (all_symptoms cat) current)))%Z ->
  calculate_next_n_symptoms cat current n method denied_symptoms g =
  (let denied := match denied_symptoms with None => [] | Some d => d end in
   let cands := get_candidate_diseases cat current in
   let avail := set_diff (all_symptoms cat) current in
   if method =? "greedy" then slift (greedy_selection cat current cands denied avail n)
   else if method =? "exhaustive" then slift (exhaustive_search cat current cands denied avail n)
   else if method =? "genetic" then genetic_algorithm cat current cands denied avail n
   else sraise (ValueError "Unknown method")) g.
Proof.
  intros Hn. unfold calculate_next_n_symptoms. cbv zeta.
  destruct (Z.of_nat _ <? n)%Z eqn:E; [apply Z.ltb_lt in E; lia | reflexivity].
Qed.

(** C5: when the pool holds at least [n] symptoms, the call raises
    [ValueError("Unknown method")] exactly for a method other than
    ['greedy'], ['exhaustive'] and ['genetic'], and returns no proposal then. *)
Theorem calculate_next_n_symptoms_unknown_method {G} `{Rng G} (cat : catalog)
  (current : list symptom) (n : Z) (method : string)
  (denied : option (list symptom)) (g : G) :
  (n <= Z.of_nat (length (set_diff (all_symptoms cat) current)))%Z ->
  (calculate_next_n_symptoms cat current n method denied g = inl (ValueError "Unknown method")
   <-> ~ In method ["greedy"; "exhaustive"; "genetic"]).
Proof.
  intros Hn. rewrite (calculate_next_n_symptoms_dispatch _ _ _ _ _ _ Hn). cbv zeta.
  split.
  - intros Hcall Hin.
    destruct Hin as [<-|[<-|[<-|[]]]]; simpl in Hcall.
    + exact (ssafe_lift _ (rsafe_greedy_selection _ _ _ _ _ _) g _ Hcall eq_refl).
    + exact (ssafe_lift _ (rsafe_exhaustive_search _ _ _ _ _ _) g _ Hcall eq_refl).
    + exact (ssafe_genetic_algorithm _ _ _ _ _ _ g _ Hcall eq_refl).
  - intros Hnot.
    destruct (method =? "greedy") eqn:E1;
      [apply String.eqb_eq in E1; subst; simpl in Hnot; tauto|].
    destruct (method =? "exhaustive") eqn:E2;
      [apply String.eqb_eq in E2; subst; simpl in Hnot; tauto|].
    destruct (method =? "genetic") eqn:E3;
      [apply String.eqb_eq in E3; subst; simpl in Hnot; tauto|].
    reflexivity.
Qed.

Lemma calculate_next_n_symptoms_unknown_method_witness :
  (1 <= Z.of_nat (length (set_diff (all_symptoms example_catalog) ["x"])))%Z /\
  (calculate_next_n_symptoms (G:=nat) example_catalog ["x"] 1 "random" None 0%nat
     = inl (ValueError "Unknown method")
   <-> ~ In "random" ["greedy"; "exhaustive"; "genetic"]).
Proof.
  assert (Hn : (1 <= Z.of_nat (length (set_diff (all_symptoms example_catalog) ["x"])))%Z)
    by (vm_compute; discriminate).
  split; [exact Hn|].
  exact (calculate_next_n_symptoms_unknown_method example_catalog ["x"] 1 "random" None 0%nat Hn).
Defined.

(** C4 fails: with [n = 0] nothing is raised; the greedy strategy
    returns the empty proposal. *)
Lemma calculate_next_n_symptoms_zero_counterexample :
  calculate_next_n_symptoms (G:=nat) [("A", ["x"])] [] 0 "greedy" None 0%nat = inr ([], 0%nat).
Proof. reflexivity. Qed.

(** ** Lists: updates, swaps and prefixes *)

Lemma upd_length {A} (l : list A) (k : nat) (v : A) : length (upd l k v) = length l.
Proof.
  revert k. induction l as [|x t IH]; intros [|k]; simpl; auto.
Qed.

Lemma upd_app_r {A} (a b : list A) (k : nat) (v : A) :
  upd (a ++ b) (length a + k) v = a ++ upd b k v.
Proof. induction a as [|x t IH]; simpl; [reflexivity | now rewrite IH]. Qed.

Lemma upd_same {A} (l : list A) (k : nat) (x : A) :
  nth_error l k = Some x -> upd l k x = l.
Proof.
  revert k. induction l as [|y t IH]; intros [|k] Hk; simpl in *; try discriminate.
  - now injection Hk as ->.
  - now rewrite IH.
Qed.

Lemma upd_comm {A} (l : list A) (i j : nat) (u w : A) :
  i <> j -> upd (upd l i u) j w = upd (upd l j w) i u.
Proof.
  revert i j. induction l as [|x t IH]; intros [|i] [|j] Hij; simpl; auto.
  - lia.
  - rewrite IH by lia. reflexivity.
Qed.

Lemma swap_lt_perm {A} (l : list A) (i j : nat) (x y : A) :
  (i < j)%nat -> nth_error l i = Some x -> nth_error l j = Some y ->
  Permutation (upd (upd l i y) j x) l.
Proof.
  intros Hij Hx Hy.
  destruct (nth_error_split l i Hx) as (a & b & -> & Ha).
  rewrite nth_error_app2 in Hy by lia.
  replace (j - length a)%nat with (S (j - i - 1)) in Hy by lia. simpl in Hy.
  destruct (nth_error_split b _ Hy) as (c & d & -> & Hc).
  replace i with (length a + 0)%nat by lia. rewrite upd_app_r. simpl.
  replace j with (length a + S (length c + 0))%nat by lia.
  rewrite upd_app_r. simpl. rewrite upd_app_r. simpl.
  apply Permutation_app_head.
  rewrite <- (Permutation_middle c d x), <- (Permutation_middle c d y).
  apply perm_swap.
Qed.

Lemma swap_perm {A} (l : list A) (i j : nat) : Permutation (swap l i j) l.
Proof.
  unfold swap.
  destruct (nth_error l i) as [x|] eqn:Ex; [|reflexivity].
  destruct (nth_error l j) as [y|] eqn:Ey; [|reflexivity].
  destruct (Nat.lt_trichotomy i j) as [Hlt|[->|Hgt]].
  - now apply swap_lt_perm.
  - rewrite Ex in Ey. injection Ey as ->.
    rewrite (upd_same l j y Ex), (upd_same l j y Ex). reflexivity.
  - rewrite upd_comm by lia. now apply swap_lt_perm.
Qed.

Lemma NoDup_firstn {A} (k : nat) (l : list A) : NoDup l -> NoDup (firstn k l).
Proof.
  intros Hl. rewrite <- (firstn_skipn k l) in Hl.
  exact (NoDup_app_remove_r _ _ Hl).
Qed.

Lemma firstn_incl {A} (k : nat) (l : list A) : incl (firstn k l) l.
Proof.
  intros x Hx. rewrite <- (firstn_skipn k l). apply in_or_app. now left.
Qed.

(** ** numpy's shuffle permutes and never raises *)

Section RandomLemmas.
Context {G : Type} `{Rng G}.

Lemma shuffle_from_perm {A} (i : nat) (l : list A) (g : G) :
  exists l' g', shuffle_from i l g = inr (l', g') /\ Permutation l' l.
Proof.
  revert l g. induction i as [|i IH]; intros l g.
  - exists l, g. split; reflexivity.
  - simpl. unfold sbind, rand_below. destruct (rng_bits g) as [r g1].
    destruct (IH (swap l (S i) (r mod S (S i))) g1) as (l' & g' & Hs & Hp).
    exists l', g'. split; [exact Hs|].
    rewrite Hp. apply swap_perm.
Qed.

Lemma shuffle_perm {A} (l : list A) (g : G) :
  exists l' g', shuffle l g = inr (l', g') /\ Permutation l' l.
Proof. apply shuffle_from_perm. Qed.

End RandomLemmas.

(** ** Set operations *)

Lemma In_set_union (x : symptom) (a b : list symptom) :
  In x (set_union a b) <-> In x a \/ In x b.
Proof.
  unfold set_union. rewrite in_app_iff, filter_In, nodup_In. split.
  - intros [Ha|[Hb _]]; auto.
  - intros [Ha|Hb]; [now left|].
    destruct (mem x a) eqn:E.
    + left. now apply mem_In.
    + right. split; [exact Hb | reflexivity].
Qed.

Lemma NoDup_set_union (a b : list symptom) : NoDup a -> NoDup (set_union a b).
Proof.
  intros Ha. unfold set_union. apply NoDup_app; [exact Ha | |].
  - apply NoDup_filter, NoDup_nodup.
  - intros x Hxa Hxb. apply filter_In in Hxb as [_ Hm].
    apply negb_true_iff, mem_notIn in Hm. contradiction.
Qed.

Lemma length_set_union (a b : list symptom) : (length a <= length (set_union a b))%nat.
Proof. unfold set_union. rewrite length_app. lia. Qed.

Lemma py_set_id (l : list symptom) : NoDup l -> py_set l = l.
Proof. apply nodup_fixed_point. Qed.

Lemma In_set_diff (x : symptom) (a b : list symptom) :
  In x (set_diff a b) <-> In x a /\ ~ In x b.
Proof.
  unfold set_diff. rewrite filter_In, negb_true_iff, mem_notIn. reflexivity.
Qed.

Lemma NoDup_set_diff (a b : list symptom) : NoDup a -> NoDup (set_diff a b).
Proof. apply NoDup_filter. Qed.

Lemma NoDup_all_symptoms (cat : catalog) : NoDup (all_symptoms cat).
Proof. apply NoDup_nodup. Qed.

(** ** [_crossover] *)

Lemma crossover_fill_done {G} `{Rng G} (fuel : nat) (u : list symptom) (n : Z)
  (combined : list symptom) (g : G) :
  (n <= Z.of_nat (length combined))%Z ->
  crossover_fill fuel u n combined g = inr (combined, g).
Proof.
  intros Hn. destruct fuel as [|k]; simpl; [reflexivity|].
  destruct (Z.of_nat (length combined) <? n)%Z eqn:E; [apply Z.ltb_lt in E; lia|].
  reflexivity.
Qed.

Lemma crossover_spec {G} `{Rng G} (p1 p2 : list symptom) (n : nat) (g : G) :
  NoDup p1 -> length p1 = n ->
  exists c g', crossover p1 p2 (Z.of_nat n) g = inr ((c, c), g') /\
    NoDup c /\ length c = n /\ incl c (set_union p1 p2).
Proof.
  intros Hnd1 Hlen1. unfold crossover, sbind.
  set (U := set_union p1 p2).
  assert (HU : NoDup U) by now apply NoDup_set_union.
  assert (HUlen : (n <= length U)%nat) by (subst n; apply length_set_union).
  destruct (Z.of_nat n <? Z.of_nat (length U))%Z eqn:E.
  - destruct (shuffle_perm U g) as (U' & g1 & Hsh & Hp). rewrite Hsh. simpl.
    unfold py_take. rewrite Nat2Z.id.
    destruct (0 <=? Z.of_nat n)%Z eqn:E0; [|apply Z.leb_gt in E0; lia].
    assert (HU' : NoDup U') by exact (Permutation_NoDup (Permutation_sym Hp) HU).
    assert (Hlen : length (firstn n U') = n)
      by (apply firstn_length_le; rewrite (Permutation_length Hp); exact HUlen).
    rewrite crossover_fill_done by lia.
    rewrite py_set_id by now apply NoDup_firstn.
    exists (firstn n U'), g1. split; [reflexivity|].
    split; [now apply NoDup_firstn|]. split; [exact Hlen|].
    intros x Hx. apply (Permutation_in _ Hp). exact (firstn_incl n U' x Hx).
  - simpl. apply Z.ltb_ge in E.
    rewrite crossover_fill_done by lia.
    rewrite py_set_id by exact HU.
    exists U, g. split; [reflexivity|]. split; [exact HU|]. split; [lia|].
    intros x Hx; exact Hx.
Qed.

(** C8: from two size-[n] parents the crossover returns twice the same
    set, of size [n], drawn from the union of the parents. *)
Theorem crossover_same_children {G} `{Rng G} (p1 p2 : list symptom) (n : nat) (g : G) :
  NoDup p1 -> NoDup p2 -> length p1 = n -> length p2 = n ->
  exists c1 c2 g', crossover p1 p2 (Z.of_nat n) g = inr ((c1, c2), g') /\
    c1 = c2 /\ NoDup c1 /\ length c1 = n /\
    (forall x, In x c1 -> In x p1 \/ In x p2).
Proof.
  intros Hnd1 _ Hlen1 _.
  destruct (crossover_spec p1 p2 n g Hnd1 Hlen1) as (c & g' & Hc & Hnd & Hlen & Hincl).
  exists c, c, g'. repeat split; auto.
  intros x Hx. apply In_set_union. now apply Hincl.
Qed.

Lemma crossover_same_children_witness :
  NoDup ["x"; "y"] /\ NoDup ["y"; "z"] /\ length ["x"; "y"] = 2%nat /\
  length ["y"; "z"] = 2%nat /\
  exists c1 c2 g', crossover (G:=nat) ["x"; "y"] ["y"; "z"] (Z.of_nat 2) 0%nat
                     = inr ((c1, c2), g') /\
    c1 = c2 /\ NoDup c1 /\ length c1 = 2%nat /\
    (forall x, In x c1 -> In x ["x"; "y"] \/ In x ["y"; "z"]).
Proof.
  assert (H1 : NoDup ["x"; "y"]) by (repeat constructor; simpl; intuition discriminate).
  assert (H2 : NoDup ["y"; "z"]) by (repeat constructor; simpl; intuition discriminate).
  split; [exact H1|]. split; [exact H2|]. split; [reflexivity|]. split; [reflexivity|].
  exact (crossover_same_children ["x"; "y"] ["y"; "z"] 2 0%nat H1 H2 eq_refl eq_refl).
Defined.

(** ** Sorting by score permutes the pool *)

Lemma insert_desc_perm {K A} (gtb : K -> K -> bool) (x : K * A) (l : list (K * A)) :
  Permutation (insert_desc gtb x l) (x :: l).
Proof.
  induction l as [|y t IH]; simpl; [reflexivity|].
  destruct (gtb (fst x) (fst y)); [reflexivity|].
  rewrite IH. apply perm_swap.
Qed.

Lemma sort_desc_perm {K A} (gtb : K -> K -> bool) (l : list (K * A)) :
  Permutation (sort_desc gtb l) l.
Proof.
  unfold sort_desc.
  assert (Hgen : forall acc, Permutation (fold_left (fun acc x => insert_desc gtb x acc) l acc)
                               (l ++ acc)).
  { induction l as [|x t IH]; intros acc; simpl; [reflexivity|].
    rewrite IH, insert_desc_perm. apply Permutation_sym, Permutation_middle. }
  rewrite Hgen. now rewrite app_nil_r.
Qed.

Lemma rmap_length {A B} (f : A -> Res B) (l : list A) (ys : list B) :
  rmap f l = ok ys -> length ys = length l.
Proof.
  revert ys. induction l as [|x t IH]; intros ys; simpl.
  - intros Heq. now injection Heq as <-.
  - destruct (f x) as [e|y]; simpl; [discriminate|].
    destruct (rmap f t) as [e|ys'] eqn:Et; simpl; [discriminate|].
    intros Heq. injection Heq as <-. simpl. now rewrite (IH ys' eq_refl).
Qed.

Lemma map_snd_combine {A B} (ks : list A) (l : list B) :
  length ks = length l -> map snd (combine ks l) = l.
Proof.
  revert l. induction ks as [|k t IH]; intros [|x l] Hlen; simpl in *; try lia; auto.
  rewrite IH by lia. reflexivity.
Qed.

Lemma sort_by_score_perm cat current cands denied (l sorted : list symptom) :
  sort_by_score cat current cands denied l = ok sorted -> Permutation sorted l.
Proof.
  unfold sort_by_score.
  destruct (rmap (symptom_score cat current cands denied) l) as [e|keys] eqn:Ek;
    simpl; [discriminate|].
  intros Heq. injection Heq as <-.
  rewrite <- (map_snd_combine keys l) at 2 by exact (rmap_length _ _ _ Ek).
  apply Permutation_map, sort_desc_perm.
Qed.

(** ** [itertools.combinations] enumerates the subsets of size [k] *)

Lemma combinations_0 {A} (l : list A) : combinations l 0 = [[]].
Proof. destruct l; reflexivity. Qed.

Lemma In_combinations {A} (l : list A) (k : nat) (c : list A) :
  In c (combinations l k) ->
  length c = k /\ incl c l /\ (NoDup l -> NoDup c).
Proof.
  revert k c. induction l as [|x t IH]; intros k c.
  - destruct k; simpl; [intros [<-|[]] | intros []].
    repeat split; [intros y Hy; exact Hy | intros _; constructor].
  - destruct k as [|k]; simpl.
    + intros [<-|[]]. repeat split; [intros y [] | intros _; constructor].
    + rewrite in_app_iff, in_map_iff. intros [[c0 [<- Hc0]]|Hc].
      * destruct (IH k c0 Hc0) as (Hlen & Hincl & Hnd).
        split; [simpl; now rewrite Hlen|]. split.
        -- intros y [<-|Hy]; [now left | right; now apply Hincl].
        -- intros Hl. inversion Hl as [|? ? Hx Ht]; subst.
           constructor; [intros Hx'; apply Hx, Hincl, Hx' | now apply Hnd].
      * destruct (IH (S k) c Hc) as (Hlen & Hincl & Hnd).
        split; [exact Hlen|]. split.
        -- intros y Hy. right. now apply Hincl.
        -- intros Hl. inversion Hl; subst. now apply Hnd.
Qed.

Lemma combinations_complete (l : list symptom) (k : nat) (c' : list symptom) :
  NoDup l -> NoDup c' -> length c' = k -> incl c' l ->
  exists c, In c (combinations l k) /\ Permutation c c'.
Proof.
  revert k c'. induction l as [|x t IH]; intros k c' Hl Hc' Hlen Hincl.
  - destruct c' as [|y c'']; [|destruct (Hincl y (or_introl eq_refl))].
    subst k. exists []. simpl. split; [now left | reflexivity].
  - inversion Hl as [|? ? Hxt Ht]; subst.
    destruct (length c') as [|k] eqn:Ek.
    + destruct c' as [|y c'']; [|discriminate].
      exists []. simpl. split; [now left | reflexivity].
    + simpl. destruct (in_dec string_dec x c') as [Hin|Hnin].
      * destruct (in_split x c' Hin) as (c1 & c2 & ->).
        destruct (NoDup_remove c1 c2 x Hc') as [Hrest Hxrest].
        assert (Hlr : length (c1 ++ c2) = k)
          by (rewrite length_app in *; simpl in Ek; lia).
        assert (Hir : incl (c1 ++ c2) t).
        { intros y Hy. destruct (Hincl y) as [<-|Hyt]; [| contradiction | exact Hyt].
          apply in_app_iff in Hy as [Hy|Hy]; apply in_or_app; [now left | right; now right]. }
        destruct (IH k (c1 ++ c2) Ht Hrest Hlr Hir) as (c0 & Hc0 & Hp).
        exists (x :: c0). split.
        -- apply in_or_app. left. now apply in_map.
        -- rewrite Hp. apply Permutation_middle.
      * assert (Hir : incl c' t).
        { intros y Hy. destruct (Hincl y Hy) as [<-|Hyt]; [contradiction | exact Hyt]. }
        destruct (IH (S k) c' Ht Hc' Ek Hir) as (c0 & Hc0 & Hp).
        exists c0. split; [apply in_or_app; now right | exact Hp].
Qed.

Lemma combinations_nonempty {A} (l : list A) (k : nat) :
  (k <= length l)%nat -> combinations l k <> [].
Proof.
  revert k. induction l as [|x t IH]; intros k Hk.
  - destruct k; simpl in *; [discriminate | lia].
  - destruct k as [|k]; simpl; [discriminate|].
    simpl in Hk. destruct (combinations t k) eqn:E; [exfalso; apply (IH k); [lia | exact E]|].
    simpl. discriminate.
Qed.

(** ** The maximum of the exhaustive loop *)

Lemma Rgtb_true (x y : R) : Rgtb x y = true -> y < x.
Proof. unfold Rgtb. destruct (Rlt_dec y x); [auto | discriminate]. Qed.

Lemma Rgtb_false (x y : R) : Rgtb x y = false -> x <= y.
Proof. unfold Rgtb. destruct (Rlt_dec y x); [discriminate | intros _; lra]. Qed.

Section ExhaustiveLoop.
Variables (cat : catalog) (current : list symptom) (cands : catalog) (denied : list symptom).

Let step := exhaustive_step cat current cands denied.
Let score := combo_score cat current cands denied.

Lemma exhaustive_fold_from (l : list (list symptom)) (b : R) (cb : list symptom)
  (best : option R * option (list symptom)) :
  rfold step l (Some b, Some cb) = ok best ->
  (best = (Some b, Some cb) /\
   forall c', In c' l -> exists v', score c' = ok v' /\ v' <= b) \/
  (exists pre c post v, l = pre ++ c :: post /\ best = (Some v, Some c) /\
     score c = ok v /\ b < v /\
     (forall c', In c' pre -> exists v', score c' = ok v' /\ v' < v) /\
     (forall c', In c' post -> exists v', score c' = ok v' /\ v' <= v)).
Proof.
  revert b cb. induction l as [|x t IH]; intros b cb Hfold; simpl in Hfold.
  - injection Hfold as <-. left. split; [reflexivity | intros c' []].
  - unfold step, exhaustive_step in Hfold. fold score in Hfold.
    destruct (score x) as [e|vx] eqn:Ex; simpl in Hfold; [discriminate|].
    destruct (Rgtb vx b) eqn:Eg.
    + apply Rgtb_true in Eg.
      destruct (IH vx x Hfold) as [[-> Hall]|(pre & c & post & v & -> & -> & Hc & Hlt & Hpre & Hpost)].
      * right. exists [], x, t, vx.
        split; [reflexivity|]. split; [reflexivity|]. split; [exact Ex|]. split; [exact Eg|].
        split; [intros c' []|exact Hall].
      * right. exists (x :: pre), c, post, v.
        split; [reflexivity|]. split; [reflexivity|]. split; [exact Hc|]. split; [lra|].
        split; [|exact Hpost].
        intros c' [<-|Hc']; [exists vx; split; [exact Ex | lra] | now apply Hpre].
    + apply Rgtb_false in Eg.
      destruct (IH b cb Hfold) as [[-> Hall]|(pre & c & post & v & -> & -> & Hc & Hlt & Hpre & Hpost)].
      * left. split; [reflexivity|].
        intros c' [<-|Hc']; [exists vx; split; [exact Ex | exact Eg] | now apply Hall].
      * right. exists (x :: pre), c, post, v.
        split; [reflexivity|]. split; [reflexivity|]. split; [exact Hc|]. split; [lra|].
        split; [|exact Hpost].
        intros c' [<-|Hc']; [exists vx; split; [exact Ex | lra] | now apply Hpre].
Qed.

Lemma exhaustive_fold (l : list (list symptom)) (best : option R * option (list symptom)) :
  l <> [] ->
  rfold step l (None, None) = ok best ->
  exists pre c post v, l = pre ++ c :: post /\ snd best = Some c /\ score c = ok v /\
    (forall c', In c' pre -> exists v', score c' = ok v' /\ v' < v) /\
    (forall c', In c' post -> exists v', score c' = ok v' /\ v' <= v).
Proof.
  destruct l as [|x t]; intros Hne Hfold; [contradiction|].
  simpl in Hfold. unfold step, exhaustive_step in Hfold. fold score in Hfold.
  destruct (score x) as [e|vx] eqn:Ex; simpl in Hfold; [discriminate|].
  destruct (exhaustive_fold_from t vx x best Hfold)
    as [[-> Hall]|(pre & c & post & v & -> & -> & Hc & Hlt & Hpre & Hpost)].
  - exists [], x, t, vx.
    split; [reflexivity|]. split; [reflexivity|]. split; [exact Ex|].
    split; [intros c' []|exact Hall].
  - exists (x :: pre), c, post, v.
    split; [reflexivity|]. split; [reflexivity|]. split; [exact Hc|].
    split; [|exact Hpost].
    intros c' [<-|Hc']; [exists vx; split; [exact Ex | lra] | now apply Hpre].
Qed.

End ExhaustiveLoop.

Lemma combo_score_penalized (cat : catalog) (current denied c : list symptom) :
  NoDup c ->
  combo_score cat current (get_candidate_diseases cat current) denied c =
  penalized_score cat current denied c.
Proof.
  intros Hc. unfold combo_score, penalized_score, count_denied.
  rewrite py_set_id by exact Hc.
  destruct (calculate_combined_score _ _ _) as [e|s]; simpl; [reflexivity|].
  f_equal. ring.
Qed.

Lemma exhaustive_search_spec (cat : catalog) (current : list symptom) (cands : catalog)
  (denied pool : list symptom) (n : Z) (p : list symptom) :
  NoDup pool -> (1 <= n <= Z.of_nat (length pool))%Z ->
  exhaustive_search cat current cands denied pool n = ok p ->
  exists sorted pre post v,
    sort_by_score cat current cands denied pool = ok sorted /\
    Permutation sorted pool /\
    combinations sorted (Z.to_nat n) = pre ++ p :: post /\
    NoDup p /\ length p = Z.to_nat n /\ incl p pool /\
    combo_score cat current cands denied p = ok v /\
    (forall c', In c' pre -> exists v', combo_score cat current cands denied c' = ok v' /\ v' < v) /\
    (forall c', In c' post -> exists v', combo_score cat current cands denied c' = ok v' /\ v' <= v).
Proof.
  intros Hpool Hn Hex. unfold exhaustive_search in Hex.
  destruct (sort_by_score cat current cands denied pool) as [e|sorted] eqn:Es;
    simpl in Hex; [discriminate|].
  unfold py_combinations in Hex.
  destruct (n <? 0)%Z eqn:En; [apply Z.ltb_lt in En; lia|]. simpl in Hex.
  destruct (rfold (exhaustive_step cat current cands denied)
              (combinations sorted (Z.to_nat n)) (None, None)) as [e|best] eqn:Ef;
    simpl in Hex; [discriminate|].
  injection Hex as Hp.
  assert (Hperm := sort_by_score_perm _ _ _ _ _ _ Es).
  assert (Hsorted : NoDup sorted) by exact (Permutation_NoDup (Permutation_sym Hperm) Hpool).
  assert (Hne : combinations sorted (Z.to_nat n) <> []).
  { apply combinations_nonempty. rewrite (Permutation_length Hperm). lia. }
  destruct (exhaustive_fold cat current cands denied _ best Hne Ef)
    as (pre & c & post & v & Hsplit & Hbest & Hc & Hpre & Hpost).
  assert (Hin : In c (combinations sorted (Z.to_nat n)))
    by (rewrite Hsplit; apply in_or_app; right; now left).
  destruct (In_combinations _ _ _ Hin) as (Hlen & Hincl & Hnd).
  specialize (Hnd Hsorted).
  rewrite Hbest in Hp. destruct c as [|x c0] eqn:Ec; [simpl in Hlen; lia|].
  rewrite <- Ec in *. rewrite py_set_id in Hp by exact Hnd. subst p.
  exists sorted, pre, post, v.
  split; [reflexivity|]. split; [exact Hperm|]. split; [exact Hsplit|].
  split; [exact Hnd|]. split; [exact Hlen|].
  split; [intros y Hy; apply (Permutation_in _ Hperm); now apply Hincl|].
  split; [exact Hc|]. split; [exact Hpre | exact Hpost].
Qed.

Lemma NoDup_pool (cat : catalog) (current : list symptom) :
  NoDup (set_diff (all_symptoms cat) current).
Proof. apply NoDup_set_diff, NoDup_all_symptoms. Qed.

(** C1: when it returns, the exhaustive strategy returns a size-[n] subset
    of the unknown pool that is first, in the enumeration of
    [combinations(sorted_pool, n)], among those of greatest
    [CombinedScore(confirmed ∪ c, candidates) - 0.2 * |c ∩ denied|]; that
    enumeration holds every size-[n] subset of the pool (up to order). *)
Theorem exhaustive_search_optimal {G} `{Rng G} (cat : catalog) (current denied : list symptom)
  (n : Z) (g : G) :
  (1 <= n <= Z.of_nat (length (set_diff (all_symptoms cat) current)))%Z ->
  match calculate_next_n_symptoms cat current n "exhaustive" (Some denied) g with
  | inl _ => True
  | inr (p, _) =>
      exists sorted pre post v,
        sort_by_score cat current (get_candidate_diseases cat current) denied
          (set_diff (all_symptoms cat) current) = ok sorted /\
        Permutation sorted (set_diff (all_symptoms cat) current) /\
        (forall c', NoDup c' -> length c' = Z.to_nat n ->
           incl c' (set_diff (all_symptoms cat) current) ->
           exists c, In c (combinations sorted (Z.to_nat n)) /\ Permutation c c') /\
        combinations sorted (Z.to_nat n) = pre ++ p :: post /\
        NoDup p /\ length p = Z.to_nat n /\ incl p (set_diff (all_symptoms cat) current) /\
        penalized_score cat current denied p = ok v /\
        (forall c', In c' pre ->
           exists v', penalized_score cat current denied c' = ok v' /\ v' < v) /\
        (forall c', In c' post ->
           exists v', penalized_score cat current denied c' = ok v' /\ v' <= v)
  end.
Proof.
  intros Hn.
  rewrite (calculate_next_n_symptoms_dispatch _ _ _ _ _ _ (proj2 Hn)). cbv zeta.
  replace ("exhaustive" =? "greedy") with false by reflexivity.
  rewrite String.eqb_refl. unfold slift.
  set (pool := set_diff (all_symptoms cat) current) in *.
  set (cands := get_candidate_diseases cat current).
  destruct (exhaustive_search cat current cands denied pool n) as [e|p] eqn:Ex; [exact I|].
  destruct (exhaustive_search_spec cat current cands denied pool n p (NoDup_pool cat current) Hn Ex)
    as (sorted & pre & post & v & Hs & Hperm & Hsplit & Hnd & Hlen & Hincl & Hc & Hpre & Hpost).
  assert (Hsorted : NoDup sorted)
    by exact (Permutation_NoDup (Permutation_sym Hperm) (NoDup_pool cat current)).
  assert (Hcomb : forall c', In c' (combinations sorted (Z.to_nat n)) -> NoDup c')
    by (intros c' Hc'; exact (proj2 (proj2 (In_combinations _ _ _ Hc')) Hsorted)).
  assert (Hin : forall c', In c' pre \/ In c' post -> In c' (combinations sorted (Z.to_nat n)))
    by (intros c' Hc'; rewrite Hsplit; apply in_or_app;
        destruct Hc'; [now left | right; now right]).
  exists sorted, pre, post, v.
  split; [exact Hs|]. split; [exact Hperm|].
  split.
  { intros c' Hnd' Hlen' Hincl'.
    destruct (combinations_complete sorted (Z.to_nat n) c' Hsorted Hnd' Hlen')
      as (c & Hc1 & Hc2); [|now exists c].
    intros y Hy. apply (Permutation_in _ (Permutation_sym Hperm)). now apply Hincl'. }
  split; [exact Hsplit|]. split; [exact Hnd|]. split; [exact Hlen|]. split; [exact Hincl|].
  split; [rewrite <- combo_score_penalized by exact Hnd; exact Hc|].
  split.
  - intros c' Hc'. rewrite <- combo_score_penalized by (apply Hcomb, Hin; now left).
    now apply Hpre.
  - intros c' Hc'. rewrite <- combo_score_penalized by (apply Hcomb, Hin; now right).
    now apply Hpost.
Qed.

Lemma exhaustive_search_optimal_witness :
  (1 <= 1 <= Z.of_nat (length (set_diff (all_symptoms example_catalog) ["x"])))%Z /\
  match calculate_next_n_symptoms (G:=nat) example_catalog ["x"] 1 "exhaustive" (Some []) 0%nat with
  | inl _ => True
  | inr (p, _) =>
      exists sorted pre post v,
        sort_by_score example_catalog ["x"] (get_candidate_diseases example_catalog ["x"]) []
          (set_diff (all_symptoms example_catalog) ["x"]) = ok sorted /\
        Permutation sorted (set_diff (all_symptoms example_catalog) ["x"]) /\
        (forall c', NoDup c' -> length c' = Z.to_nat 1 ->
           incl c' (set_diff (all_symptoms example_catalog) ["x"]) ->
           exists c, In c (combinations sorted (Z.to_nat 1)) /\ Permutation c c') /\
        combinations sorted (Z.to_nat 1) = pre ++ p :: post /\
        NoDup p /\ length p = Z.to_nat 1 /\
        incl p (set_diff (all_symptoms example_catalog) ["x"]) /\
        penalized_score example_catalog ["x"] [] p = ok v /\
        (forall c', In c' pre ->
           exists v', penalized_score example_catalog ["x"] [] c' = ok v' /\ v' < v) /\
        (forall c', In c' post ->
           exists v', penalized_score example_catalog ["x"] [] c' = ok v' /\ v' <= v)
  end.
Proof.
  assert (Hn : (1 <= 1 <= Z.of_nat (length (set_diff (all_symptoms example_catalog) ["x"])))%Z)
    by (vm_compute; split; discriminate).
  split; [exact Hn|].
  exact (exhaustive_search_optimal example_catalog ["x"] [] 1 0%nat Hn).
Defined.

(** ** Partial correctness in the state monad *)

Section Holds.
Context {G : Type}.

Lemma sholds_ret {A} (a : A) (Q : A -> Prop) : Q a -> sholds (G:=G) (sret a) Q.
Proof. intros Ha g a' g' Heq. unfold sret in Heq. now injection Heq as <- _. Qed.

Lemma sholds_raise {A} (e : exn) (Q : A -> Prop) : sholds (G:=G) (sraise e) Q.
Proof. intros g a g' Heq. discriminate. Qed.

Lemma sholds_bind {A B} (m : St G A) (k : A -> St G B) (P : A -> Prop) (Q : B -> Prop) :
  sholds m P -> (forall a, P a -> sholds (k a) Q) -> sholds (sbind m k) Q.
Proof.
  intros Hm Hk g b g' Heq. unfold sbind in Heq.
  destruct (m g) as [e|[a g1]] eqn:Em; [discriminate|].
  exact (Hk a (Hm g a g1 Em) g1 b g' Heq).
Qed.

Lemma sholds_lift {A} (m : Res A) (Q : A -> Prop) :
  (forall a, m = ok a -> Q a) -> sholds (G:=G) (slift m) Q.
Proof.
  intros Hm g a g' Heq. unfold slift in Heq.
  destruct m as [e|a0]; [discriminate|]. injection Heq as <- _. now apply Hm.
Qed.

Lemma sholds_weaken {A} (m : St G A) (P Q : A -> Prop) :
  sholds m P -> (forall a, P a -> Q a) -> sholds m Q.
Proof. intros Hm HPQ g a g' Heq. apply HPQ. exact (Hm g a g' Heq). Qed.

Lemma sholds_srepeat {A} (k : nat) (m : St G A) (P : A -> Prop) :
  sholds m P -> sholds (srepeat k m) (Forall P).
Proof.
  intros Hm. induction k as [|k IH]; simpl.
  - apply sholds_ret. constructor.
  - apply (sholds_bind _ _ P); [exact Hm | intros x Hx].
    apply (sholds_bind _ _ (Forall P)); [exact IH | intros xs Hxs].
    apply sholds_ret. now constructor.
Qed.

Lemma sholds_smap {A B} (f : A -> St G B) (l : list A) (P : B -> Prop) :
  (forall x, In x l -> sholds (f x) P) -> sholds (smap f l) (Forall P).
Proof.
  induction l as [|x t IH]; intros Hf; simpl.
  - apply sholds_ret. constructor.
  - apply (sholds_bind _ _ P); [apply Hf; now left | intros y Hy].
    apply (sholds_bind _ _ (Forall P)); [apply IH; intros z Hz; apply Hf; now right|].
    intros ys Hys. apply sholds_ret. now constructor.
Qed.

Lemma sholds_siter {A} (k : nat) (f : A -> St G A) (a : A) (I : A -> Prop) :
  I a -> (forall a, I a -> sholds (f a) I) -> sholds (siter k f a) I.
Proof.
  revert a. induction k as [|k IH]; intros a Ha Hf; simpl.
  - now apply sholds_ret.
  - apply (sholds_bind _ _ I); [now apply Hf | intros a' Ha'; now apply IH].
Qed.

Lemma sholds_sfold {A B} (f : B -> A -> St G B) (l : list A) (b : B) (I : B -> Prop) :
  I b -> (forall b x, I b -> In x l -> sholds (f b x) I) -> sholds (sfold f l b) I.
Proof.
  revert b. induction l as [|x t IH]; intros b Hb Hf; simpl.
  - now apply sholds_ret.
  - apply (sholds_bind _ _ I); [apply Hf; [exact Hb | now left]|].
    intros b' Hb'. apply IH; [exact Hb'|]. intros b0 y H0 Hy. apply Hf; [exact H0 | now right].
Qed.

End Holds.

(** ** Invariants of the genetic search *)

Lemma filter_all_true {A} (f : A -> bool) (l : list A) :
  (forall x, In x l -> f x = true) -> filter f l = l.
Proof.
  induction l as [|x t IH]; intros Hf; simpl; [reflexivity|].
  rewrite (Hf x (or_introl eq_refl)), IH; [reflexivity|].
  intros y Hy. apply Hf. now right.
Qed.

Lemma In_set_remove (x y : symptom) (s : list symptom) :
  In y (set_remove x s) <-> In y s /\ y <> x.
Proof.
  unfold set_remove. rewrite filter_In, negb_true_iff, String.eqb_neq.
  split; intros [H1 H2]; split; auto.
Qed.

Lemma NoDup_set_remove (x : symptom) (s : list symptom) : NoDup s -> NoDup (set_remove x s).
Proof. apply NoDup_filter. Qed.

Lemma length_set_remove (x : symptom) (s : list symptom) :
  NoDup s -> In x s -> length (set_remove x s) = (length s - 1)%nat.
Proof.
  induction s as [|a t IH]; intros Hnd Hin; [destruct Hin|].
  inversion Hnd as [|? ? Ha Ht]; subst. unfold set_remove; simpl.
  destruct (String.eqb_spec x a) as [->|Hne]; simpl.
  - rewrite filter_all_true; [lia|].
    intros y Hy. apply negb_true_iff, String.eqb_neq. intros ->. contradiction.
  - destruct Hin as [->|Hin]; [contradiction|].
    fold (set_remove x t). rewrite IH by assumption.
    destruct t; [destruct Hin | simpl; lia].
Qed.

Lemma set_add_fresh (s : symptom) (sel : list symptom) : ~ In s sel -> set_add s sel = sel ++ [s].
Proof. intros Hs. unfold set_add. now rewrite (proj2 (mem_notIn s sel) Hs). Qed.

(** Replacing a member of an individual by a fresh symptom of the pool. *)
Lemma well_sized_replace (k : nat) (pool ind : list symptom) (s ns : symptom) :
  well_sized k pool ind -> In s ind -> In ns pool -> ~ In ns ind ->
  well_sized k pool (set_add ns (set_remove s ind)).
Proof.
  intros [Hnd [Hlen Hinc]] Hs Hns Hfresh.
  assert (Hns' : ~ In ns (set_remove s ind)) by (rewrite In_set_remove; tauto).
  rewrite set_add_fresh by exact Hns'. split; [|split].
  - apply NoDup_app; [now apply NoDup_set_remove | repeat constructor; auto |].
    intros x Hx [<-|[]]. contradiction.
  - rewrite length_app, length_set_remove by assumption. simpl.
    destruct ind; [destruct Hs | simpl in *; lia].
  - intros x Hx. apply in_app_or in Hx as [Hx|[<-|[]]]; [|exact Hns].
    apply In_set_remove in Hx as [Hx _]. now apply Hinc.
Qed.

Lemma sholds_any {G A} (m : St G A) : sholds m (fun _ => True).
Proof. intros g a g' _. exact I. Qed.

Lemma rfold_inv {A B} (f : B -> A -> Res B) (l : list A) (b r : B) (I : B -> Prop) :
  I b -> (forall b x b', I b -> In x l -> f b x = ok b' -> I b') ->
  rfold f l b = ok r -> I r.
Proof.
  revert b. induction l as [|x t IH]; intros b Hb Hf Heq; simpl in Heq.
  - now injection Heq as <-.
  - destruct (f b x) as [e|b'] eqn:Ef; [discriminate|].
    apply (IH b'); [exact (Hf b x b' Hb (or_introl eq_refl) Ef) | | exact Heq].
    intros b0 y b1 H0 Hy. apply Hf; [exact H0 | now right].
Qed.

Lemma py_max_by_In {A} (f : A -> Res R) (l : list A) (x : A) :
  py_max_by f l = ok x -> In x l.
Proof.
  destruct l as [|a t]; simpl; [discriminate|].
  destruct (f a) as [e|fa]; simpl; [discriminate|].
  destruct (rfold _ t (a, fa)) as [e|r] eqn:Er; simpl; [discriminate|].
  intros Heq. injection Heq as <-.
  apply (rfold_inv _ t (a, fa) r (fun b => In (fst b) (a :: t))) in Er; [exact Er | now left|].
  intros b y b' Hb Hy Hf. destruct (f y) as [e|fy]; simpl in Hf; [discriminate|].
  injection Hf as <-. destruct (Rgtb fy (snd b)); [now right | exact Hb].
Qed.

Lemma nth_Forall_lt (l : list nat) (k j : nat) :
  (0 < k)%nat -> Forall (fun i => i < k)%nat l -> (nth j l 0%nat < k)%nat.
Proof.
  intros Hk Hl. destruct (Nat.lt_ge_cases j (length l)) as [Hj|Hj].
  - rewrite Forall_forall in Hl. apply Hl, nth_In, Hj.
  - rewrite nth_overflow by exact Hj. exact Hk.
Qed.

Lemma In_last_k {A} (k : nat) (l : list A) (x : A) : In x (last_k k l) -> In x l.
Proof.
  unfold last_k. intros Hx. rewrite <- (firstn_skipn (length l - k) l).
  apply in_or_app. now right.
Qed.

Lemma In_argsort (l : list R) (i : nat) : In i (argsort l) -> (i < length l)%nat.
Proof.
  unfold argsort. intros Hi.
  assert (Hi' : In i (map snd (combine l (seq 0 (length l))))).
  { eapply Permutation_in; [apply Permutation_map, sort_desc_perm | exact Hi]. }
  rewrite map_snd_combine in Hi' by (now rewrite length_seq).
  apply in_seq in Hi'. lia.
Qed.

Lemma NoDup_map_nth (l : list symptom) (idx : list nat) :
  NoDup l -> NoDup idx -> (forall i, In i idx -> i < length l)%nat ->
  NoDup (map (fun i => nth i l ""%string) idx).
Proof.
  intros Hl. induction idx as [|i t IH]; intros Hidx Hlt; simpl; [constructor|].
  inversion Hidx as [|? ? Hi Ht]; subst. constructor.
  - intros Hin. apply in_map_iff in Hin as (j & Hji & Hj).
    apply (proj1 (NoDup_nth l ""%string) Hl) in Hji;
      [subst; contradiction | apply Hlt; now right | apply Hlt; now left].
  - apply IH; [exact Ht|]. intros j Hj. apply Hlt. now right.
Qed.

Section GeneticInv.
Context {G : Type} `{Rng G}.

Lemma rand_below_lt (k : nat) : (0 < k)%nat -> sholds (G:=G) (rand_below k) (fun r => r < k)%nat.
Proof.
  intros Hk g r g' Heq. unfold rand_below in Heq.
  destruct (rng_bits g) as [b g1]. injection Heq as <- _.
  apply Nat.mod_upper_bound. lia.
Qed.

Lemma choice_In (l : list symptom) : sholds (G:=G) (choice l) (fun x => In x l).
Proof.
  destruct l as [|a t]; simpl; [apply sholds_raise|].
  apply (sholds_bind _ _ (fun i => i < S (length t))%nat);
    [apply rand_below_lt; lia | intros i Hi].
  apply sholds_ret. apply (nth_In (a :: t) a). simpl. exact Hi.
Qed.

Lemma choice_indices_lt (k size : nat) :
  sholds (G:=G) (choice_indices k size) (fun idx => (0 < k)%nat /\ Forall (fun i => i < k)%nat idx).
Proof.
  unfold choice_indices. destruct (Nat.eqb_spec k 0) as [_|Hk]; [apply sholds_raise|].
  apply (sholds_weaken _ (Forall (fun i => i < k)%nat)); [|intros idx Hidx; split; [lia | exact Hidx]].
  apply sholds_srepeat, rand_below_lt. lia.
Qed.

Lemma tournament_select_In (pop : list individual) (fs : list R) :
  sholds (G:=G) (tournament_select pop fs) (fun ind => In ind pop).
Proof.
  unfold tournament_select.
  apply (sholds_bind _ _ _ _ (choice_indices_lt (length pop) 3)). intros idx [Hk Hidx].
  apply sholds_ret. apply nth_In, nth_Forall_lt; assumption.
Qed.

Variable pool : list symptom.

Lemma crossover_well_sized (k : nat) (p1 p2 : individual) :
  well_sized k pool p1 -> well_sized k pool p2 ->
  sholds (G:=G) (crossover p1 p2 (Z.of_nat k))
    (fun cs => well_sized k pool (fst cs) /\ well_sized k pool (snd cs)).
Proof.
  intros [Hnd1 [Hl1 Hi1]] [_ [_ Hi2]] g cs g' Heq.
  destruct (crossover_spec p1 p2 k g Hnd1 Hl1) as (c & g1 & Hc & Hnd & Hl & Hi).
  rewrite Hc in Heq. injection Heq as <- _. simpl.
  assert (Hw : well_sized k pool c).
  { split; [exact Hnd | split; [exact Hl|]].
    intros x Hx. apply Hi, In_set_union in Hx as [Hx|Hx]; auto. }
  now split.
Qed.

Lemma mutate_well_sized (k : nat) (ind : individual) (rate : R) :
  well_sized k pool ind -> sholds (G:=G) (mutate ind pool rate) (well_sized k pool).
Proof.
  intros Hw. unfold mutate.
  apply (sholds_bind _ _ _ _ (sholds_any _)). intros r _.
  destruct (Rlt_dec r rate); [|now apply sholds_ret].
  destruct (set_diff pool ind) as [|a t] eqn:Ed; [now apply sholds_ret|].
  apply (sholds_bind _ _ _ _ (choice_In ind)). intros s Hs.
  apply (sholds_bind _ _ _ _ (choice_In (a :: t))). intros ns Hns.
  apply sholds_ret. rewrite <- Ed in Hns. apply In_set_diff in Hns as [Hns Hfresh].
  now apply well_sized_replace.
Qed.

Lemma breed_well_sized (k : nat) (m : nat) (pop : list individual) (fs : list R) (rate : R)
  (acc : list individual) :
  Forall (well_sized k pool) pop -> Forall (well_sized k pool) acc ->
  sholds (G:=G) (breed m pop fs pool (Z.of_nat k) rate acc) (Forall (well_sized k pool)).
Proof.
  intros Hpop. revert acc. induction m as [|m IH]; intros acc Hacc; simpl.
  - now apply sholds_ret.
  - rewrite Forall_forall in Hpop.
    apply (sholds_bind _ _ _ _ (tournament_select_In pop fs)). intros p1 Hp1.
    apply (sholds_bind _ _ _ _ (tournament_select_In pop fs)). intros p2 Hp2.
    apply (sholds_bind _ _ _ _ (crossover_well_sized k p1 p2 (Hpop _ Hp1) (Hpop _ Hp2))).
    intros cs [Hc1 Hc2].
    apply (sholds_bind _ _ _ _ (mutate_well_sized k _ rate Hc1)). intros c1 H1.
    apply (sholds_bind _ _ _ _ (mutate_well_sized k _ rate Hc2)). intros c2 H2.
    apply IH. apply Forall_app. split; [exact Hacc | constructor; [exact H1 | constructor; [exact H2 | constructor]]].
Qed.

Lemma choice_noreplace_well_sized (k : nat) :
  NoDup pool -> (k <= length pool)%nat ->
  sholds (G:=G) (choice_noreplace pool (Z.of_nat k)) (well_sized k pool).
Proof.
  intros Hnd Hk. unfold choice_noreplace.
  destruct (_ && _); [apply sholds_raise|].
  destruct (Z.ltb_spec (Z.of_nat (length pool)) (Z.of_nat k)); [apply sholds_raise|].
  destruct (Z.ltb_spec (Z.of_nat k) 0); [apply sholds_raise|].
  apply (sholds_bind _ _ (fun idx => Permutation idx (seq 0 (length pool)))).
  { intros g idx g' Heq. destruct (shuffle_perm (seq 0 (length pool)) g) as (l' & g1 & E & Hp).
    rewrite E in Heq. now injection Heq as <- _. }
  intros idx Hp. apply sholds_ret. rewrite Nat2Z.id.
  assert (Hlt : forall i, In i (firstn k idx) -> (i < length pool)%nat).
  { intros i Hi. apply firstn_incl, (Permutation_in _ Hp), in_seq in Hi. lia. }
  split; [|split].
  - apply NoDup_map_nth; [exact Hnd | | exact Hlt].
    apply NoDup_firstn. apply (Permutation_NoDup (Permutation_sym Hp)), seq_NoDup.
  - rewrite length_map. apply firstn_length_le.
    rewrite (Permutation_length Hp), length_seq. exact Hk.
  - intros x Hx. apply in_map_iff in Hx as (i & <- & Hi). apply nth_In, Hlt, Hi.
Qed.

End GeneticInv.

Section GeneticRun.
Context {G : Type} `{Rng G}.
Variables (cat : catalog) (current : list symptom) (cands : catalog) (denied : list symptom).

Let pool := set_diff (all_symptoms cat) current.

Lemma local_search_well_sized (k : nat) (ind : individual) :
  well_sized k pool ind -> sholds (G:=G) (local_search cat current cands ind) (well_sized k pool).
Proof.
  intros Hw. unfold local_search.
  apply (sholds_bind _ _ _ _ (sholds_any _)). intros v _.
  apply (sholds_bind _ _ (fun b => well_sized k pool (fst b))); [|intros b Hb; now apply sholds_ret].
  apply sholds_sfold; [exact Hw|]. intros b s Hb Hs.
  destruct (set_diff (set_diff (all_symptoms cat) current) ind) as [|a t] eqn:Ed;
    [now apply sholds_ret|].
  apply (sholds_bind _ _ _ _ (choice_In (a :: t))). intros ns Hns.
  rewrite <- Ed in Hns. apply In_set_diff in Hns as [Hns Hfresh].
  apply (sholds_bind _ _ _ _ (sholds_any _)). intros v' _.
  destruct (Rgtb v' (snd b)); apply sholds_ret; [|exact Hb].
  now apply well_sized_replace.
Qed.

Lemma generation_well_sized (k : nat) (st : list individual * R) :
  Forall (well_sized k pool) (fst st) ->
  sholds (G:=G) (generation cat current cands denied pool (Z.of_nat k) st)
    (fun st' => Forall (well_sized k pool) (fst st')).
Proof.
  destruct st as [pop rate]. intros Hpop. cbn [fst] in Hpop. unfold generation.
  apply (sholds_bind _ _ (fun fs => length fs = length pop));
    [apply sholds_lift; apply rmap_length|].
  intros fs Hfs.
  assert (Helite : Forall (well_sized k pool)
                     (map (fun i => nth i pop []) (last_k elite_size (argsort fs)))).
  { rewrite Forall_forall in *. intros ind Hind.
    apply in_map_iff in Hind as (i & <- & Hi).
    apply Hpop, nth_In. rewrite <- Hfs. apply In_argsort, (In_last_k elite_size), Hi. }
  apply (sholds_bind _ _ _ _ (breed_well_sized pool k _ pop fs rate _ Hpop Helite)).
  intros newpop Hnew.
  apply (sholds_bind _ _ (Forall (well_sized k pool))).
  - apply sholds_smap. intros ind Hind. apply local_search_well_sized.
    rewrite Forall_forall in Hnew. now apply Hnew.
  - intros pop' Hpop'. now apply sholds_ret.
Qed.

Lemma genetic_algorithm_well_sized (n : Z) :
  (0 <= n <= Z.of_nat (length pool))%Z ->
  sholds (G:=G) (genetic_algorithm cat current cands denied pool n) (well_sized (Z.to_nat n) pool).
Proof.
  intros Hn. set (k := Z.to_nat n). replace n with (Z.of_nat k) by (unfold k; lia).
  assert (Hk : (k <= length pool)%nat) by (unfold k; lia).
  assert (Hnd : NoDup pool) by apply NoDup_pool.
  unfold genetic_algorithm.
  apply (sholds_bind _ _ (Forall (well_sized k pool))).
  { apply sholds_srepeat.
    apply (sholds_bind _ _ _ _ (choice_noreplace_well_sized pool k Hnd Hk)).
    intros ind Hind. apply sholds_ret. rewrite py_set_id; [exact Hind | apply Hind]. }
  intros pop Hpop.
  apply (sholds_bind _ _ (fun st => Forall (well_sized k pool) (fst st))).
  { apply sholds_siter; [exact Hpop|]. intros st Hst. now apply generation_well_sized. }
  intros st Hst. apply sholds_lift. intros ind Hind.
  apply py_max_by_In in Hind. rewrite Forall_forall in Hst. now apply Hst.
Qed.

End GeneticRun.

(** ** The argument [n] of [calculate_next_n_symptoms] *)

Lemma sbind_raise {G A B} (m : St G A) (k : A -> St G B) (g : G) (e : exn) :
  m g = inl e -> sbind m k g = inl e.
Proof. intros Hm. unfold sbind. now rewrite Hm. Qed.

Lemma srepeat_raise {G A} (k : nat) (m : St G A) (g : G) (e : exn) :
  m g = inl e -> srepeat (S k) m g = inl e.
Proof. intros Hm. cbn [srepeat]. now apply sbind_raise. Qed.

Lemma choice_noreplace_negative {G} `{Rng G} (l : list symptom) (n : Z) (g : G) :
  (n < 0)%Z -> exists e, choice_noreplace l n g = inl e.
Proof.
  intros Hn. unfold choice_noreplace.
  destruct (_ && _); [eexists; reflexivity|].
  destruct (_ <? n)%Z; [eexists; reflexivity|].
  rewrite (proj2 (Z.ltb_lt n 0) Hn). eexists; reflexivity.
Qed.

Lemma genetic_algorithm_negative {G} `{Rng G} cat current cands denied (avail : list symptom)
  (n : Z) (g : G) :
  (n < 0)%Z -> exists e, genetic_algorithm cat current cands denied avail n g = inl e.
Proof.
  intros Hn. destruct (choice_noreplace_negative avail n g Hn) as [e He].
  exists e. unfold genetic_algorithm. cbv zeta.
  apply sbind_raise. unfold population_size. apply srepeat_raise.
  now apply sbind_raise.
Qed.

(** C4, as the code has it: there is no check on [n]. For [n <= 0] a
    greedy call that does not raise returns the empty set; an exhaustive
    or genetic call that does not raise returns the empty set when
    [n = 0] and always raises when [n < 0] ([combinations] with a negative
    length, [np.random.choice] with a negative size); any other method
    raises [ValueError("Unknown method")]. *)
Theorem calculate_next_n_symptoms_nonpositive {G} `{Rng G} (cat : catalog)
  (current : list symptom) (denied : option (list symptom)) (n : Z) (method : string) (g : G) :
  (n <= 0)%Z ->
  (method = "greedy" ->
   match calculate_next_n_symptoms cat current n method denied g with
   | inr (p, _) => p = []
   | inl _ => True
   end) /\
  (method = "exhaustive" \/ method = "genetic" -> n = 0%Z ->
   match calculate_next_n_symptoms cat current n method denied g with
   | inr (p, _) => p = []
   | inl _ => True
   end) /\
  (method = "exhaustive" \/ method = "genetic" -> (n < 0)%Z ->
   exists e, calculate_next_n_symptoms cat current n method denied g = inl e) /\
  (~ In method ["greedy"; "exhaustive"; "genetic"] ->
   calculate_next_n_symptoms cat current n method denied g = inl (ValueError "Unknown method")).
Proof.
  intros Hn.
  assert (Hle : (n <= Z.of_nat (length (set_diff (all_symptoms cat) current)))%Z) by lia.
  rewrite !(calculate_next_n_symptoms_dispatch _ _ _ _ _ _ Hle). cbv zeta.
  set (denied' := match denied with None => [] | Some d => d end).
  set (cands := get_candidate_diseases cat current).
  set (avail := set_diff (all_symptoms cat) current).
  assert (E1 : ("exhaustive" =? "greedy")%string = false) by reflexivity.
  assert (E2 : ("genetic" =? "greedy")%string = false) by reflexivity.
  assert (E3 : ("genetic" =? "exhaustive")%string = false) by reflexivity.
  split; [|split; [|split]].
  - intros ->. rewrite String.eqb_refl. unfold slift, greedy_selection.
    destruct (sort_by_score cat current cands denied' avail) as [e|sl]; simpl; [exact I|].
    replace (Z.to_nat n) with 0%nat by lia. simpl.
    destruct (0 <? n)%Z eqn:E; [apply Z.ltb_lt in E; lia | reflexivity].
  - intros [-> | ->] ->.
    + rewrite E1, String.eqb_refl. unfold slift, exhaustive_search.
      destruct (sort_by_score cat current cands denied' avail) as [e|sl]; simpl; [exact I|].
      replace (combinations sl 0%nat) with [@nil symptom] by (destruct sl; reflexivity).
      simpl. unfold exhaustive_step.
      destruct (combo_score cat current cands denied' []) as [e|v]; simpl; [exact I | reflexivity].
    + rewrite E2, E3, String.eqb_refl.
      assert (Hg := genetic_algorithm_well_sized cat current cands denied' 0
                      (conj (Z.le_refl 0) (Zle_0_nat _)) g).
      destruct (genetic_algorithm cat current cands denied' avail 0 g) as [e|[p g']] eqn:Eg;
        [exact I|].
      destruct (Hg p g' Eg) as [_ [Hl _]].
      destruct p; [reflexivity | discriminate].
  - intros [-> | ->] Hneg.
    + rewrite E1, String.eqb_refl. unfold slift, exhaustive_search.
      destruct (sort_by_score cat current cands denied' avail) as [e|sl]; simpl;
        [eexists; reflexivity|].
      unfold py_combinations. destruct (n <? 0)%Z eqn:E; [|apply Z.ltb_ge in E; lia].
      simpl. eexists; reflexivity.
    + rewrite E2, E3, String.eqb_refl.
      apply genetic_algorithm_negative, Hneg.
  - intros Hm.
    assert (N : forall s, In s ["greedy"; "exhaustive"; "genetic"] -> (method =? s)%string = false).
    { intros s Hs. apply String.eqb_neq. intros ->. exact (Hm Hs). }
    rewrite !N by (simpl; tauto). reflexivity.
Qed.


(** ** Invariants of the greedy search *)

Lemma NoDup_app_disjoint {A} (a b : list A) (x : A) : NoDup (a ++ b) -> In x a -> ~ In x b.
Proof.
  induction a as [|y t IH]; intros Hnd Hx; [destruct Hx|].
  inversion Hnd as [|? ? Hy Ht]; subst.
  destruct Hx as [<-|Hx]; [|now apply IH].
  intros Hb. apply Hy, in_or_app. now right.
Qed.

Lemma list_remove_split (s : symptom) (l : list symptom) :
  In s l -> exists l1 l2, l = l1 ++ s :: l2 /\ list_remove s l = l1 ++ l2.
Proof.
  induction l as [|x t IH]; intros Hin; [destruct Hin|]. simpl.
  destruct (String.eqb_spec s x) as [->|Hne].
  - now exists [], t.
  - destruct Hin as [->|Hin]; [contradiction|].
    destruct (IH Hin) as (l1 & l2 & -> & Hr). exists (x :: l1), l2. now rewrite Hr.
Qed.

Lemma greedy_pick_In cat current cands denied (sel l : list symptom) best (s : symptom) :
  greedy_pick cat current cands denied sel l = ok best -> snd best = Some s -> In s l.
Proof.
  unfold greedy_pick. intros Hf. revert s.
  refine (rfold_inv _ l (None, None) best (fun b => forall s, snd b = Some s -> In s l) _ _ Hf);
    [intros s0 Hs0; discriminate|].
  intros b x b' Hb Hx Hstep. destruct (calculate_combined_score _ _ _) as [e|v];
    simpl in Hstep; [discriminate|].
  destruct (gt_best _ _); injection Hstep as <-; [|exact Hb].
  intros s0 Hs0. injection Hs0 as <-. exact Hx.
Qed.

Lemma greedy_loop_perm cat current cands denied (fuel : nat) (sel l sel' l' : list symptom) :
  NoDup (sel ++ l) ->
  greedy_loop cat current cands denied fuel sel l = ok (sel', l') ->
  Permutation (sel' ++ l') (sel ++ l) /\ (length sel' <= length sel + fuel)%nat.
Proof.
  revert sel l. induction fuel as [|fuel IH]; intros sel l Hnd Heq;
    cbn -[list_remove greedy_pick set_add] in Heq.
  - injection Heq as <- <-. split; [reflexivity | lia].
  - destruct l as [|x t].
    { injection Heq as <- <-. split; [reflexivity | lia]. }
    destruct (greedy_pick _ _ _ _ sel (x :: t)) as [e|best] eqn:Ep;
      cbn -[list_remove set_add] in Heq; [discriminate|].
    destruct (snd best) as [s|] eqn:Es.
    2: { destruct (IH sel (x :: t) Hnd Heq). split; [assumption | lia]. }
    destruct (String.eqb s "").
    { destruct (IH sel (x :: t) Hnd Heq). split; [assumption | lia]. }
    pose proof (greedy_pick_In _ _ _ _ _ _ _ _ Ep Es) as Hs.
    destruct (list_remove_split s (x :: t) Hs) as (l1 & l2 & Hl & Hr).
    rewrite Hr in Heq. rewrite Hl in Hnd.
    assert (Hsel : ~ In s sel).
    { intros Hin. apply (NoDup_app_disjoint _ _ s Hnd Hin), in_or_app. right. now left. }
    rewrite set_add_fresh in Heq by exact Hsel.
    assert (Hp : Permutation ((sel ++ [s]) ++ l1 ++ l2) (sel ++ l1 ++ s :: l2)).
    { rewrite <- app_assoc. simpl. apply Permutation_app_head, Permutation_middle. }
    destruct (IH _ _ (Permutation_NoDup (Permutation_sym Hp) Hnd) Heq) as [Hp' Hlen].
    rewrite Hl. split; [now rewrite Hp' | rewrite length_app in Hlen; simpl in Hlen; lia].
Qed.

Lemma backfill_spec (n : Z) (sel rem : list symptom) :
  NoDup (sel ++ rem) -> (Z.of_nat (length sel) <= n <= Z.of_nat (length sel + length rem))%Z ->
  NoDup (backfill n sel rem) /\ Z.of_nat (length (backfill n sel rem)) = n /\
  incl (backfill n sel rem) (sel ++ rem).
Proof.
  revert sel. induction rem as [|s t IH]; intros sel Hnd Hn; simpl in *.
  - rewrite app_nil_r in *. rewrite Nat.add_0_r in Hn.
    split; [exact Hnd | split; [lia | apply incl_refl]].
  - destruct (Z.leb_spec n (Z.of_nat (length sel))).
    + split; [exact (NoDup_app_remove_r _ _ Hnd) | split; [lia|]].
      intros x Hx. apply in_or_app. now left.
    + assert (Hs : ~ In s sel).
      { intros Hin. apply (NoDup_app_disjoint _ _ s Hnd Hin). now left. }
      rewrite set_add_fresh by exact Hs.
      specialize (IH (sel ++ [s])).
      rewrite <- app_assoc in IH. simpl in IH. rewrite length_app in IH. simpl in IH.
      destruct IH as (H1 & H2 & H3); [exact Hnd | lia |].
      split; [exact H1 | split; [exact H2 | exact H3]].
Qed.

Lemma greedy_selection_well_sized cat current cands denied (pool : list symptom) (n : Z)
  (p : list symptom) :
  NoDup pool -> (0 <= n <= Z.of_nat (length pool))%Z ->
  greedy_selection cat current cands denied pool n = ok p -> well_sized (Z.to_nat n) pool p.
Proof.
  intros Hnd Hn. unfold greedy_selection.
  destruct (sort_by_score _ _ _ _ pool) as [e|sorted] eqn:Es; simpl; [discriminate|].
  apply sort_by_score_perm in Es.
  destruct (greedy_loop _ _ _ _ _ [] sorted) as [e|[sel l']] eqn:El; simpl; [discriminate|].
  apply greedy_loop_perm in El as [Hp Hlen];
    [|simpl; exact (Permutation_NoDup (Permutation_sym Es) Hnd)].
  simpl in Hp, Hlen. rewrite Es in Hp.
  assert (Hnd' : NoDup (sel ++ l')) by exact (Permutation_NoDup (Permutation_sym Hp) Hnd).
  assert (Hinc : incl (sel ++ l') pool) by (intros x Hx; exact (Permutation_in _ Hp Hx)).
  assert (Hsum : length (sel ++ l') = length pool) by exact (Permutation_length Hp).
  rewrite length_app in Hsum.
  destruct (Z.ltb_spec (Z.of_nat (length sel)) n).
  - rewrite filter_all_true.
    2: { intros x Hx. apply negb_true_iff, mem_notIn. intros Hin.
         exact (NoDup_app_disjoint _ _ x Hnd' Hin Hx). }
    destruct (sort_by_score _ _ _ _ l') as [e|rem] eqn:Er; simpl; [discriminate|].
    intros Heq. injection Heq as <-.
    apply sort_by_score_perm in Er.
    assert (Hp2 : Permutation (sel ++ rem) (sel ++ l')) by now apply Permutation_app_head.
    destruct (backfill_spec n sel rem) as (H1 & H2 & H3).
    + exact (Permutation_NoDup (Permutation_sym Hp2) Hnd').
    + rewrite (Permutation_length Er). lia.
    + split; [exact H1 | split; [lia|]].
      intros x Hx. apply Hinc, (Permutation_in _ Hp2), H3, Hx.
  - intros Heq. injection Heq as <-.
    split; [exact (NoDup_app_remove_r _ _ Hnd') | split; [lia|]].
    intros x Hx. apply Hinc, in_or_app. now left.
Qed.

(** ** The proposal of [calculate_next_n_symptoms] *)

Lemma sholds_run {G A} (m : St G A) (Q : A -> Prop) (g : G) :
  sholds m Q -> match m g with inl _ => True | inr (p, _) => Q p end.
Proof.
  intros Hm. destruct (m g) as [e|[p g']] eqn:E; [exact I | exact (Hm g p g' E)].
Qed.

Lemma well_sized_proposal (current pool p : list symptom) (n : Z) :
  (1 <= n <= Z.of_nat (length pool))%Z ->
  (forall x, In x pool -> ~ In x current) ->
  well_sized (Z.to_nat n) pool p ->
  incl p pool /\ NoDup p /\ (forall x, In x current -> ~ In x p) /\
  ((n <= Z.of_nat (length pool))%Z -> Z.of_nat (length p) = n) /\
  ((Z.of_nat (length pool) < n)%Z -> p = pool).
Proof.
  intros Hn Hdisj [Hnd [Hlen Hinc]].
  split; [exact Hinc | split; [exact Hnd | split; [|split; intros; [lia | exfalso; lia]]]].
  intros x Hx Hp. exact (Hdisj x (Hinc x Hp) Hx).
Qed.

(** C2: for n >= 1 and each of the three methods, a proposal (a result
    that is returned, not raised) is a set of distinct symptoms drawn from
    [AllSymptoms - confirmed], so it holds no confirmed symptom; the denied
    symptoms are not taken out of that pool. It has exactly n symptoms when
    the pool has at least n, and is the whole pool when the pool is smaller. *)
Theorem calculate_next_n_symptoms_proposal {G} `{Rng G} (cat : catalog)
  (current : list symptom) (denied_symptoms : option (list symptom)) (n : Z)
  (method : string) (g : G) :
  (1 <= n)%Z -> In method ["greedy"; "exhaustive"; "genetic"] ->
  let pool := set_diff (all_symptoms cat) current in
  match calculate_next_n_symptoms cat current n method denied_symptoms g with
  | inl _ => True
  | inr (p, _) =>
      incl p pool /\ NoDup p /\ (forall x, In x current -> ~ In x p) /\
      ((n <= Z.of_nat (length pool))%Z -> Z.of_nat (length p) = n) /\
      ((Z.of_nat (length pool) < n)%Z -> p = pool)
  end.
Proof.
  intros Hn Hm pool.
  assert (Hdisj : forall x, In x pool -> ~ In x current)
    by (intros x Hx; apply In_set_diff in Hx; tauto).
  destruct (Z.ltb_spec (Z.of_nat (length pool)) n) as [Hlt|Hge].
  - unfold calculate_next_n_symptoms. cbv zeta. fold pool.
    rewrite (proj2 (Z.ltb_lt _ _) Hlt). cbn.
    split; [apply incl_refl | split; [apply NoDup_pool | split; [|split; [lia | reflexivity]]]].
    intros x Hx Hp. exact (Hdisj x Hp Hx).
  - rewrite calculate_next_n_symptoms_dispatch by exact Hge. cbv zeta. fold pool.
    set (denied := match denied_symptoms with None => [] | Some d => d end).
    set (cands := get_candidate_diseases cat current).
    assert (Hn' : (1 <= n <= Z.of_nat (length pool))%Z) by lia.
    destruct (String.eqb_spec method "greedy") as [_|Hg].
    { apply sholds_run, sholds_lift. intros p Hp.
      apply (well_sized_proposal current pool p n Hn' Hdisj).
      apply (greedy_selection_well_sized cat current cands denied pool n p);
        [apply NoDup_pool | lia | exact Hp]. }
    destruct (String.eqb_spec method "exhaustive") as [_|He].
    { apply sholds_run, sholds_lift. intros p Hp.
      apply (well_sized_proposal current pool p n Hn' Hdisj).
      destruct (exhaustive_search_spec cat current cands denied pool n p (NoDup_pool cat current)
                  Hn' Hp) as (sorted & pre & post & v & _ & _ & _ & Hnd & Hlen & Hinc & _).
      split; [exact Hnd | split; [exact Hlen | exact Hinc]]. }
    destruct (String.eqb_spec method "genetic") as [_|Hge'].
    { apply sholds_run.
      apply (sholds_weaken _ (well_sized (Z.to_nat n) pool));
        [apply genetic_algorithm_well_sized; unfold pool in Hn'; lia|].
      intros p Hp. exact (well_sized_proposal current pool p n Hn' Hdisj Hp). }
    exfalso. destruct Hm as [<-|[<-|[<-|[]]]]; contradiction.
Qed.

Lemma calculate_next_n_symptoms_proposal_witness :
  (1 <= 2)%Z /\ In "greedy" ["greedy"; "exhaustive"; "genetic"] /\
  (let pool := set_diff (all_symptoms example_catalog) ["x"] in
   match calculate_next_n_symptoms (G:=nat) example_catalog ["x"] 2 "greedy" (Some ["y"]) 0%nat with
   | inl _ => True
   | inr (p, _) =>
       incl p pool /\ NoDup p /\ (forall x, In x ["x"] -> ~ In x p) /\
       ((2 <= Z.of_nat (length pool))%Z -> Z.of_nat (length p) = 2%Z) /\
       ((Z.of_nat (length pool) < 2)%Z -> p = pool)
   end).
Proof.
  assert (Hn : (1 <= 2)%Z) by lia.
  assert (Hm : In "greedy" ["greedy"; "exhaustive"; "genetic"]) by (simpl; auto).
  split; [exact Hn | split; [exact Hm|]].
  exact (calculate_next_n_symptoms_proposal example_catalog ["x"] (Some ["y"]) 2 "greedy" 0%nat Hn Hm).
Defined.

Lemma calculate_next_n_symptoms_nonpositive_witness :
  (0 <= 0)%Z /\
  (("exhaustive" = "greedy" ->
   match calculate_next_n_symptoms (G:=nat) [("A", ["x"])] [] 0 "exhaustive" None 0%nat with
   | inr (p, _) => p = []
   | inl _ => True
   end) /\
  ("exhaustive" = "exhaustive" \/ "exhaustive" = "genetic" -> 0%Z = 0%Z ->
   match calculate_next_n_symptoms (G:=nat) [("A", ["x"])] [] 0 "exhaustive" None 0%nat with
   | inr (p, _) => p = []
   | inl _ => True
   end) /\
  ("exhaustive" = "exhaustive" \/ "exhaustive" = "genetic" -> (0 < 0)%Z ->
   exists e, calculate_next_n_symptoms (G:=nat) [("A", ["x"])] [] 0 "exhaustive" None 0%nat = inl e) /\
  (~ In "exhaustive" ["greedy"; "exhaustive"; "genetic"] ->
   calculate_next_n_symptoms (G:=nat) [("A", ["x"])] [] 0 "exhaustive" None 0%nat = inl (ValueError "Unknown method"))) /\
  (-1 <= 0)%Z /\
  (("genetic" = "greedy" ->
   match calculate_next_n_symptoms (G:=nat) [("A", ["x"])] [] (-1) "genetic" None 0%nat with
   | inr (p, _) => p = []
   | inl _ => True
   end) /\
  ("genetic" = "exhaustive" \/ "genetic" = "genetic" -> (-1)%Z = 0%Z ->
   match calculate_next_n_symptoms (G:=nat) [("A", ["x"])] [] (-1) "genetic" None 0%nat with
   | inr (p, _) => p = []
   | inl _ => True
   end) /\
  ("genetic" = "exhaustive" \/ "genetic" = "genetic" -> ((-1) < 0)%Z ->
   exists e, calculate_next_n_symptoms (G:=nat) [("A", ["x"])] [] (-1) "genetic" None 0%nat = inl e) /\
  (~ In "genetic" ["greedy"; "exhaustive"; "genetic"] ->
   calculate_next_n_symptoms (G:=nat) [("A", ["x"])] [] (-1) "genetic" None 0%nat = inl (ValueError "Unknown method"))).
Proof.
  split; [lia|]. split.
  - apply (calculate_next_n_symptoms_nonpositive [("A", ["x"])] [] None 0%Z "exhaustive" 0%nat). lia.
  - split; [lia|].
    apply (calculate_next_n_symptoms_nonpositive [("A", ["x"])] [] None (-1)%Z "genetic" 0%nat). lia.
Defined.

(** * Further properties of the code *)

(** ** [_split_by_symptoms] *)

Lemma group_insert_perm (key : list bool) (d : string) (gs : list (list bool * list string)) :
  Permutation (concat (map snd (group_insert key d gs))) (concat (map snd gs) ++ [d]).
Proof.
  induction gs as [|[k ds] t IH]; simpl; [reflexivity|].
  destruct (list_eq_dec bool_dec k key); simpl.
  - rewrite <- !app_assoc. apply Permutation_app_head, Permutation_app_comm.
  - rewrite <- app_assoc. now apply Permutation_app_head.
Qed.

Lemma group_insert_nonempty (key : list bool) (d : string) (gs : list (list bool * list string)) :
  Forall (fun g => snd g <> []) gs -> Forall (fun g => snd g <> []) (group_insert key d gs).
Proof.
  induction gs as [|[k ds] t IH]; intros Hgs; simpl.
  - constructor; [discriminate | constructor].
  - inversion Hgs as [|? ? Hk Ht]; subst.
    destruct (list_eq_dec bool_dec k key); constructor; auto.
    simpl. destruct ds; discriminate.
Qed.

(** [_split_by_symptoms] partitions the candidates: every candidate is in
    exactly one group, in the order of the groups, and no group is empty. *)
Theorem split_by_symptoms_partition (syms : list symptom) (cands : catalog) :
  Permutation (concat (split_by_symptoms syms cands)) (map fst cands) /\
  Forall (fun g => g <> []) (split_by_symptoms syms cands).
Proof.
  unfold split_by_symptoms.
  assert (Hgen : forall gs, Forall (fun g => snd g <> []) gs ->
    Permutation (concat (map snd (fold_left (fun groups '(d, ds) =>
                   group_insert (map (fun s => mem s ds) syms) d groups) cands gs)))
                (concat (map snd gs) ++ map fst cands) /\
    Forall (fun g => snd g <> []) (fold_left (fun groups '(d, ds) =>
                   group_insert (map (fun s => mem s ds) syms) d groups) cands gs)).
  { induction cands as [|[d ds] t IH]; intros gs Hgs; simpl.
    - rewrite app_nil_r. split; [reflexivity | exact Hgs].
    - destruct (IH _ (group_insert_nonempty (map (fun s => mem s ds) syms) d gs Hgs))
        as [Hp Hn].
      split; [|exact Hn].
      rewrite Hp, group_insert_perm, <- app_assoc. reflexivity. }
  destruct (Hgen [] (Forall_nil _)) as [Hp Hn]. split; [exact Hp|].
  apply Forall_map. exact Hn.
Qed.

Lemma split_fold_same (syms : list symptom) (k0 : list bool) (cands : catalog) (ns : list string) :
  Forall (fun c => map (fun s => mem s (snd c)) syms = k0) cands ->
  fold_left (fun groups '(d, ds) => group_insert (map (fun s => mem s ds) syms) d groups)
    cands [(k0, ns)] = [(k0, ns ++ map fst cands)].
Proof.
  revert ns. induction cands as [|[d ds] t IH]; intros ns Hk; simpl.
  - now rewrite app_nil_r.
  - apply Forall_cons_iff in Hk as [Hd Ht]. simpl in Hd. rewrite Hd.
    destruct (list_eq_dec bool_dec _ _) as [_|Hne]; [|contradiction].
    rewrite IH by exact Ht. now rewrite <- app_assoc.
Qed.

Lemma split_by_symptoms_same (syms : list symptom) (k0 : list bool) (cands : catalog) :
  cands <> [] -> Forall (fun c => map (fun s => mem s (snd c)) syms = k0) cands ->
  split_by_symptoms syms cands = [map fst cands].
Proof.
  destruct cands as [|[d ds] t]; intros Hne Hk; [contradiction|].
  apply Forall_cons_iff in Hk as [Hd Ht]. simpl in Hd.
  unfold split_by_symptoms. simpl. rewrite Hd.
  now rewrite (split_fold_same syms _ t [d] Ht).
Qed.

Lemma group_insert_new (key : list bool) (d : string) (gs : list (list bool * list string)) :
  ~ In key (map fst gs) -> group_insert key d gs = gs ++ [(key, [d])].
Proof.
  induction gs as [|[k ds] t IH]; intros Hk; simpl; [reflexivity|].
  destruct (list_eq_dec bool_dec k key) as [->|_]; [exfalso; apply Hk; now left|].
  rewrite IH; [reflexivity|]. intros Hin. apply Hk. now right.
Qed.

Lemma split_fold_distinct (syms : list symptom) (cands : catalog) (gs : list (list bool * list string)) :
  NoDup (map fst gs ++ map (fun c => map (fun s => mem s (snd c)) syms) cands) ->
  fold_left (fun groups '(d, ds) => group_insert (map (fun s => mem s ds) syms) d groups)
    cands gs = gs ++ map (fun c => (map (fun s => mem s (snd c)) syms, [fst c])) cands.
Proof.
  revert gs. induction cands as [|[d ds] t IH]; intros gs Hnd; simpl.
  - now rewrite app_nil_r.
  - simpl in Hnd. rewrite group_insert_new.
    2: { intros Hin. apply (NoDup_app_disjoint _ _ _ Hnd Hin). now left. }
    rewrite IH; [now rewrite <- app_assoc|].
    rewrite map_app, <- app_assoc. simpl. exact Hnd.
Qed.

Lemma split_by_symptoms_distinct (syms : list symptom) (cands : catalog) :
  NoDup (map (fun c => map (fun s => mem s (snd c)) syms) cands) ->
  split_by_symptoms syms cands = map (fun c => [fst c]) cands.
Proof.
  intros Hnd. unfold split_by_symptoms.
  rewrite (split_fold_distinct syms cands []) by exact Hnd. simpl.
  rewrite map_map. reflexivity.
Qed.

Lemma INR_length_pos {A} (l : list A) : l <> [] -> 0 < INR (length l).
Proof. destruct l; [contradiction | intros _; apply lt_0_INR; simpl; lia]. Qed.

Lemma log2_pos (x : R) : 0 < x -> log2 x = ok (ln x / ln 2).
Proof. intros Hx. unfold log2. destruct (Rlt_dec 0 x); [reflexivity | contradiction]. Qed.

Lemma py_div_nonzero (x y : R) : y <> 0 -> py_div x y = ok (x / y).
Proof. intros Hy. unfold py_div. destruct (Req_EM_T y 0); [contradiction | reflexivity]. Qed.

(** [_calculate_total_information_gain] when no symptom tells two
    candidates apart (every candidate has the same key, as with no symptoms
    at all): the value is the initial entropy [log2(len(candidates))], its
    greatest value. *)
Theorem information_gain_no_split (syms : list symptom) (cands : catalog) (k0 : list bool) :
  cands <> [] -> Forall (fun c => map (fun s => mem s (snd c)) syms = k0) cands ->
  calculate_total_information_gain syms cands = log2 (INR (length cands)).
Proof.
  intros Hne Hk. pose proof (INR_length_pos cands Hne) as Hpos.
  unfold calculate_total_information_gain.
  destruct (Nat.eqb_spec (length cands) 0) as [H0|_]; [destruct cands; [contradiction | discriminate]|].
  rewrite (log2_pos _ Hpos). cbn [rbind ok]. cbv zeta.
  rewrite (split_by_symptoms_same syms k0 cands Hne Hk). cbn [rfold].
  rewrite length_map, py_div_nonzero by lra. cbn [rbind ok].
  replace (INR (length cands) / INR (length cands)) with 1 by (field; lra).
  destruct (Rlt_dec 0 1) as [_|H1]; [|lra].
  rewrite log2_pos by lra. cbn [rbind rfold ok]. rewrite ln_1.
  f_equal. unfold Rdiv. ring.
Qed.

(** [_calculate_total_information_gain] when the symptoms tell every two
    candidates apart (the keys are pairwise distinct): the value is 0. *)
Theorem information_gain_full_split (syms : list symptom) (cands : catalog) :
  cands <> [] -> NoDup (map (fun c => map (fun s => mem s (snd c)) syms) cands) ->
  calculate_total_information_gain syms cands = ok 0.
Proof.
  intros Hne Hnd. pose proof (INR_length_pos cands Hne) as Hpos.
  set (k := INR (length cands)) in *.
  unfold calculate_total_information_gain.
  destruct (Nat.eqb_spec (length cands) 0) as [H0|_]; [destruct cands; [contradiction | discriminate]|].
  fold k. rewrite (log2_pos _ Hpos). cbn [rbind ok]. cbv zeta.
  rewrite (split_by_symptoms_distinct syms cands Hnd).
  set (t := 1 / k * (ln (1 / k) / ln 2)).
  match goal with |- context [rfold ?F _ 0] =>
    assert (Hf : forall (l : catalog) c, rfold F (map (fun c => [fst c]) l) c = ok (c - INR (length l) * t))
  end.
  { induction l as [|x l IH]; intros c; cbn [map rfold length].
    - f_equal. simpl. ring.
    - rewrite py_div_nonzero by lra. cbn [rbind ok].
      assert (Hq : 0 < INR 1 / k) by (apply Rdiv_lt_0_compat; simpl; lra).
      destruct (Rlt_dec 0 _) as [_|Hn]; [|contradiction].
      rewrite (log2_pos _ Hq). cbn [rbind ok]. rewrite IH. f_equal.
      replace (INR 1) with 1 by reflexivity. rewrite S_INR. unfold t. ring. }
  rewrite Hf. cbn [rbind ok]. f_equal. fold k. unfold t.
  unfold Rdiv. rewrite Rmult_1_l, ln_Rinv by exact Hpos.
  assert (Hln : 0 < ln 2) by (rewrite <- ln_1; apply ln_increasing; lra).
  field. split; lra.
Qed.

(** ** [_calculate_coverage_score] and [_calculate_mutual_information] *)

Lemma ratio_bounds (a b : R) : 0 <= a <= b -> 0 < b -> 0 <= a / b <= 1.
Proof.
  intros [Ha Hab] Hb. unfold Rdiv.
  assert (Hi : 0 < / b) by (apply Rinv_0_lt_compat; exact Hb).
  split; [apply Rmult_le_pos; lra|].
  replace 1 with (b * / b) by (field; lra).
  apply Rmult_le_compat_r; lra.
Qed.

(** [_calculate_coverage_score] on the candidates of any current symptoms
    never raises (a candidate's symptom set is never empty) and lies in
    [0, 1]. *)
Theorem coverage_score_bounds (cat : catalog) (current syms : list symptom) :
  exists v, calculate_coverage_score syms (get_candidate_diseases cat current) = ok v /\
            0 <= v <= 1.
Proof.
  set (cands := get_candidate_diseases cat current).
  assert (Hne : Forall (fun c => snd c <> []) cands).
  { apply Forall_forall. intros [d ds] Hin Hnil. simpl in Hnil. subst ds.
    unfold cands, get_candidate_diseases in Hin. apply filter_In in Hin as [_ Hin].
    unfold set_inter in Hin. simpl in Hin. discriminate. }
  unfold calculate_coverage_score.
  match goal with |- context [rfold ?F _ 0] =>
    assert (Hf : forall (l : catalog) a, Forall (fun c => snd c <> []) l ->
              exists s, rfold F l a = ok (a + s) /\ 0 <= s <= INR (length l))
  end.
  { induction l as [|[d ds] t IH]; intros a Hl; cbn [rfold].
    - exists 0. split; [f_equal; ring | simpl; lra].
    - apply Forall_cons_iff in Hl as [Hd Ht]. simpl in Hd.
      rewrite py_div_nonzero by (apply Rgt_not_eq, INR_length_pos, Hd). cbn [rbind ok].
      destruct (IH (a + INR (length (set_inter syms ds)) / INR (length ds)) Ht)
        as (s & Hs & Hsb).
      exists (INR (length (set_inter syms ds)) / INR (length ds) + s).
      split; [rewrite Hs; f_equal; ring|].
      assert (Hq : 0 <= INR (length (set_inter syms ds)) / INR (length ds) <= 1).
      { apply ratio_bounds; [split; [apply pos_INR | apply le_INR, length_filter_le]|].
        apply INR_length_pos, Hd. }
      rewrite length_cons, S_INR. lra. }
  destruct (Hf cands 0 Hne) as (s & Hs & Hsb). rewrite Hs. cbn [rbind ok].
  destruct cands as [|c t] eqn:Ec.
  - exists 0. split; [reflexivity | lra].
  - rewrite py_div_nonzero by (apply Rgt_not_eq, INR_length_pos; discriminate).
    eexists. split; [reflexivity|].
    apply ratio_bounds; [lra | apply INR_length_pos; discriminate].
Qed.

Lemma mutual_information_value (cat : catalog) (s1 s2 : symptom) :
  let count_both := length (filter (fun '(_, ds) => mem s1 ds && mem s2 ds) cat) in
  let count_s1 := length (filter (fun '(_, ds) => mem s1 ds) cat) in
  let count_s2 := length (filter (fun '(_, ds) => mem s2 ds) cat) in
  let total := INR (length cat) in
  (0 < count_both)%nat ->
  calculate_mutual_information cat s1 s2 =
  ok (INR count_both / total *
      (ln (INR count_both / total / (INR count_s1 / total * (INR count_s2 / total))) / ln 2)).
Proof.
  intros cb c1 c2 T Hcb.
  assert (Hc1 : (cb <= c1)%nat).
  { apply length_filter_mono. intros [d ds] _ H. now apply andb_true_iff in H as [H _]. }
  assert (Hc2 : (cb <= c2)%nat).
  { apply length_filter_mono. intros [d ds] _ H. now apply andb_true_iff in H as [_ H]. }
  assert (HT : (cb <= length cat)%nat) by apply length_filter_le.
  assert (HTp : 0 < T) by (apply lt_0_INR; lia).
  assert (Hpb : 0 < INR cb / T) by (apply Rdiv_lt_0_compat; [apply lt_0_INR; lia | exact HTp]).
  assert (Hp1 : 0 < INR c1 / T) by (apply Rdiv_lt_0_compat; [apply lt_0_INR; lia | exact HTp]).
  assert (Hp2 : 0 < INR c2 / T) by (apply Rdiv_lt_0_compat; [apply lt_0_INR; lia | exact HTp]).
  unfold calculate_mutual_information. fold cb c1 c2 T.
  destruct (Nat.eqb_spec cb 0) as [H0|_]; [lia|].
  rewrite !py_div_nonzero by lra. cbn [rbind ok].
  destruct (Req_EM_T (INR cb / T) 0); [lra|].
  destruct (Req_EM_T (INR c1 / T) 0); [lra|].
  destruct (Req_EM_T (INR c2 / T) 0); [lra|].
  assert (H12 : 0 < INR c1 / T * (INR c2 / T)) by (apply Rmult_lt_0_compat; lra).
  rewrite py_div_nonzero by lra. cbn [rbind ok].
  rewrite log2_pos by (apply Rdiv_lt_0_compat; lra). reflexivity.
Qed.

(** [_calculate_mutual_information] never raises (no division by zero, no
    logarithm of a non-positive number) and is symmetric in its two
    symptoms. *)
Theorem mutual_information_symmetric (cat : catalog) (s1 s2 : symptom) :
  exists v, calculate_mutual_information cat s1 s2 = ok v /\
            calculate_mutual_information cat s2 s1 = ok v.
Proof.
  assert (Hb : filter (fun '(_, ds) => mem s2 ds && mem s1 ds) cat =
               filter (fun '(_, ds) => mem s1 ds && mem s2 ds) cat).
  { apply filter_ext. intros [d ds]. apply andb_comm. }
  destruct (Nat.eq_dec (length (filter (fun '(_, ds) => mem s1 ds && mem s2 ds) cat)) 0)
    as [H0|Hpos].
  - exists 0. unfold calculate_mutual_information. rewrite Hb, H0. split; reflexivity.
  - eexists. split; [apply mutual_information_value; lia|].
    rewrite mutual_information_value by (rewrite Hb; lia).
    rewrite Hb. f_equal. f_equal. f_equal. f_equal. f_equal. apply Rmult_comm.
Qed.

(** ** The operators of the genetic search *)

(** [_tournament_select] raises on an empty population; otherwise the
    individual it returns is a member of the population. *)
Theorem tournament_select_member {G} `{Rng G} (pop : list individual) (fs : list R) (g : G) :
  (pop = [] -> exists e, tournament_select pop fs g = inl e) /\
  match tournament_select pop fs g with inl _ => True | inr (ind, _) => In ind pop end.
Proof.
  split; [|apply sholds_run, tournament_select_In].
  intros ->. eexists. reflexivity.
Qed.

(** [_mutate] keeps an individual of [k] distinct available symptoms an
    individual of [k] distinct available symptoms. *)
Theorem mutate_keeps_size {G} `{Rng G} (k : nat) (avail ind : list symptom) (rate : R) (g : G) :
  well_sized k avail ind ->
  match mutate ind avail rate g with inl _ => True | inr (ind', _) => well_sized k avail ind' end.
Proof. intros Hw. apply sholds_run, mutate_well_sized, Hw. Qed.

(** [_local_search] keeps an individual of [k] distinct symptoms of
    [AllSymptoms - current] such an individual. *)
Theorem local_search_keeps_size {G} `{Rng G} (cat : catalog) (current : list symptom)
  (cands : catalog) (k : nat) (ind : list symptom) (g : G) :
  well_sized k (set_diff (all_symptoms cat) current) ind ->
  match local_search cat current cands ind g with
  | inl _ => True
  | inr (ind', _) => well_sized k (set_diff (all_symptoms cat) current) ind'
  end.
Proof. intros Hw. apply sholds_run, local_search_well_sized, Hw. Qed.

(** [_local_search] never returns an individual of lower combined score
    than the one it was given. *)
Theorem local_search_no_worse {G} `{Rng G} (cat : catalog) (current : list symptom)
  (cands : catalog) (ind : list symptom) (g : G) :
  match local_search cat current cands ind g with
  | inl _ => True
  | inr (ind', _) =>
      forall v0, calculate_combined_score cat (set_union current ind) cands = ok v0 ->
      exists v, calculate_combined_score cat (set_union current ind') cands = ok v /\ v0 <= v
  end.
Proof.
  apply sholds_run. unfold local_search.
  apply (sholds_bind _ _ (fun v0 => calculate_combined_score cat (set_union current ind) cands = ok v0));
    [apply sholds_lift; auto|].
  intros v0 Hv0.
  apply (sholds_bind _ _ (fun b => calculate_combined_score cat (set_union current (fst b)) cands
                                   = ok (snd b) /\ v0 <= snd b)).
  - apply sholds_sfold; [split; [exact Hv0 | simpl; lra]|].
    intros b s [Hb Hle] _.
    destruct (set_diff (set_diff (all_symptoms cat) current) ind) as [|a t];
      [apply sholds_ret; now split|].
    apply (sholds_bind _ _ _ _ (sholds_any _)). intros ns _.
    apply (sholds_bind _ _ (fun v => calculate_combined_score cat
             (set_union current (set_add ns (set_remove s ind))) cands = ok v));
      [apply sholds_lift; auto|].
    intros v Hv. destruct (Rgtb v (snd b)) eqn:Egt; apply sholds_ret; [|now split].
    apply Rgtb_true in Egt. simpl. split; [exact Hv | lra].
  - intros b [Hb Hle]. apply sholds_ret. intros v0' Hv0'.
    rewrite Hv0 in Hv0'. injection Hv0' as <-. now exists (snd b).
Qed.

(** ** The selectors, called on any set of available symptoms *)

(** [_greedy_selection] returns exactly [n] distinct available symptoms
    for [0 <= n <= len(available)]. *)
Theorem greedy_selection_size (cat : catalog) (current : list symptom) (cands : catalog)
  (denied avail : list symptom) (n : Z) :
  NoDup avail -> (0 <= n <= Z.of_nat (length avail))%Z ->
  match greedy_selection cat current cands denied avail n with
  | inl _ => True
  | inr p => well_sized (Z.to_nat n) avail p
  end.
Proof.
  intros Hnd Hn. destruct (greedy_selection _ _ _ _ _ _) as [e|p] eqn:E; [exact I|].
  exact (greedy_selection_well_sized _ _ _ _ _ _ _ Hnd Hn E).
Qed.

(** [_exhaustive_search] returns exactly [n] distinct available symptoms
    for [1 <= n <= len(available)]. *)
Theorem exhaustive_search_size (cat : catalog) (current : list symptom) (cands : catalog)
  (denied avail : list symptom) (n : Z) :
  NoDup avail -> (1 <= n <= Z.of_nat (length avail))%Z ->
  match exhaustive_search cat current cands denied avail n with
  | inl _ => True
  | inr p => well_sized (Z.to_nat n) avail p
  end.
Proof.
  intros Hnd Hn. destruct (exhaustive_search _ _ _ _ _ _) as [e|p] eqn:E; [exact I|].
  destruct (exhaustive_search_spec _ _ _ _ _ _ _ Hnd Hn E)
    as (sorted & pre & post & v & _ & _ & _ & H1 & H2 & H3 & _).
  split; [exact H1 | split; [exact H2 | exact H3]].
Qed.

Lemma combinations_short {A} (l : list A) (r : nat) :
  (length l < r)%nat -> combinations l r = [].
Proof.
  revert r. induction l as [|x t IH]; intros [|r] Hr; simpl in *; try lia; [reflexivity|].
  rewrite !IH by lia. reflexivity.
Qed.

(** [_exhaustive_search] asked for more symptoms than are available finds
    no combination and returns the empty set. *)
Theorem exhaustive_search_too_many (cat : catalog) (current : list symptom) (cands : catalog)
  (denied avail : list symptom) (n : Z) :
  (Z.of_nat (length avail) < n)%Z ->
  match exhaustive_search cat current cands denied avail n with
  | inl _ => True
  | inr p => p = []
  end.
Proof.
  intros Hn. unfold exhaustive_search.
  destruct (sort_by_score _ _ _ _ avail) as [e|sorted] eqn:Es; [exact I|]. cbn [rbind].
  apply sort_by_score_perm, Permutation_length in Es.
  unfold py_combinations. destruct (Z.ltb_spec n 0); [lia|]. cbn [rbind ok].
  rewrite combinations_short by lia. reflexivity.
Qed.

(** ** [final.py]: one round of the diagnosis loop *)

Lemma In_set_add (x s : symptom) (l : list symptom) : In x (set_add s l) <-> x = s \/ In x l.
Proof.
  unfold set_add. destruct (mem s l) eqn:E.
  - apply mem_In in E. split; [tauto|]. intros [->|H]; assumption.
  - rewrite in_app_iff. simpl. intuition.
Qed.

Lemma record_answers_In (next confirmed cur den cur' den' : list symptom) :
  record_answers next confirmed (cur, den) = (cur', den') ->
  (forall s, In s cur' <-> In s cur \/ (In s next /\ In s confirmed)) /\
  (forall s, In s den' <-> In s den \/ (In s next /\ ~ In s confirmed)).
Proof.
  unfold record_answers. revert cur den.
  induction next as [|x t IH]; intros cur den Heq; simpl in Heq.
  - injection Heq as <- <-. split; intros s; simpl; tauto.
  - destruct (mem x confirmed) eqn:Em.
    + apply mem_In in Em. destruct (IH _ _ Heq) as [Hc Hd]. split; intros s.
      * rewrite Hc, In_set_add. simpl. split; [intros [[->|H]|H]; tauto|].
        intros [H|[[<-|H] Hs]]; tauto.
      * rewrite Hd. simpl. split; [intros [H|[H1 H2]]; tauto|].
        intros [H|[[<-|H] Hs]]; [tauto | contradiction | tauto].
    + apply mem_notIn in Em. destruct (IH _ _ Heq) as [Hc Hd]. split; intros s.
      * rewrite Hc. simpl. split; [intros [H|[H1 H2]]; tauto|].
        intros [H|[[<-|H] Hs]]; [tauto | contradiction | tauto].
      * rewrite Hd, In_set_add. simpl. split; [intros [[->|H]|H]; tauto|].
        intros [H|[[<-|H] Hs]]; tauto.
Qed.

(** The answers of a round: a symptom is confirmed from now on exactly when
    it was confirmed before or was asked and named in the answer; it is
    denied exactly when it was denied before or was asked and not named.
    Every asked symptom thus ends up confirmed or denied. *)
Theorem record_answers_spec (next confirmed cur den : list symptom) :
  let '(cur', den') := record_answers next confirmed (cur, den) in
  (forall s, In s cur' <-> In s cur \/ (In s next /\ In s confirmed)) /\
  (forall s, In s den' <-> In s den \/ (In s next /\ ~ In s confirmed)) /\
  (forall s, In s next -> In s cur' \/ In s den').
Proof.
  destruct (record_answers next confirmed (cur, den)) as [cur' den'] eqn:E.
  destruct (record_answers_In _ _ _ _ _ _ E) as [Hc Hd].
  split; [exact Hc | split; [exact Hd|]].
  intros s Hs. destruct (in_dec string_dec s confirmed);
    [left; apply Hc | right; apply Hd]; tauto.
Qed.

Lemma py_split_no_sep (sep : Ascii.ascii) (s : string) :
  ~ In sep (list_ascii_of_string s) -> py_split sep s = [s].
Proof.
  induction s as [|c t IH]; intros Hs; simpl in *; [reflexivity|].
  destruct (Ascii.eqb_spec c sep) as [->|_]; [exfalso; tauto|].
  rewrite IH by tauto. reflexivity.
Qed.

Lemma py_split_app (sep : Ascii.ascii) (a rest : string) :
  ~ In sep (list_ascii_of_string a) ->
  py_split sep (a ++ String sep rest)%string = a :: py_split sep rest.
Proof.
  induction a as [|c t IH]; intros Ha; simpl in *.
  - now rewrite Ascii.eqb_refl.
  - destruct (Ascii.eqb_spec c sep) as [->|_]; [exfalso; tauto|].
    rewrite IH by tauto. reflexivity.
Qed.

(** The answer is split at each [','] with no stripping of the pieces: a
    symptom typed after a comma and a space, as in the ["a, b"] format of
    the question's own list, is not recognised, and is recorded as denied
    (and not confirmed) although the user named it. *)
Theorem answer_after_comma_space_denied (is_blank : string -> bool) (a b : symptom)
  (next cur den : list symptom) :
  ~ In ","%char (list_ascii_of_string a) -> ~ In ","%char (list_ascii_of_string b) ->
  b <> a -> In b next -> ~ In b cur ->
  let '(cur', den') :=
    record_answers next (parse_confirmed is_blank (a ++ ", " ++ b)%string) (cur, den) in
  In b den' /\ ~ In b cur'.
Proof.
  intros Ha Hb Hab Hnext Hcur.
  assert (Hnot : ~ In b (parse_confirmed is_blank (a ++ ", " ++ b)%string)).
  { unfold parse_confirmed. destruct (is_blank _); [intros []|].
    unfold py_set. rewrite nodup_In.
    change (", " ++ b)%string with (String ","%char (String " "%char b)).
    rewrite py_split_app by exact Ha.
    rewrite py_split_no_sep by (simpl; intros [H|H]; [discriminate | exact (Hb H)]).
    intros [H|[H|[]]]; [exact (Hab (eq_sym H))|].
    apply (f_equal String.length) in H. simpl in H. lia. }
  destruct (record_answers _ _ _) as [cur' den'] eqn:E.
  destruct (record_answers_In _ _ _ _ _ _ E) as [Hc Hd].
  split; [apply Hd; tauto | rewrite Hc; tauto].
Qed.

Lemma match_rate_full (current syms : list symptom) :
  syms <> [] -> incl syms current -> match_rate current syms = 1.
Proof.
  intros Hne Hinc. unfold match_rate.
  assert (Hi : set_inter current syms = syms).
  { apply filter_all_true. intros x Hx. apply mem_In, Hinc, Hx. }
  rewrite Hi. destruct syms as [|s t]; [contradiction|]. cbv zeta.
  rewrite (proj2 (Nat.ltb_lt 0 (length (s :: t)))) by (simpl; lia).
  field. apply Rgt_not_eq, INR_length_pos. discriminate.
Qed.

Lemma diagnosis_reached_first (threshold : R) (scores : list (string * R)) (x : string * R) :
  In x scores -> threshold <= snd x ->
  exists pre y post, scores = pre ++ y :: post /\
    Forall (fun p => snd p < threshold) pre /\ threshold <= snd y /\
    In x (y :: post) /\ diagnosis_reached threshold scores = Some y.
Proof.
  induction scores as [|[d0 sc0] t IH]; intros Hx Hle; [destruct Hx|]. simpl.
  destruct (Rle_dec threshold sc0) as [H0|H0].
  - exists [], (d0, sc0), t.
    split; [reflexivity | split; [constructor | split; [exact H0 | split; [exact Hx | reflexivity]]]].
  - destruct Hx as [<-|Hx]; [contradiction|].
    destruct (IH Hx Hle) as (pre & y & post & Ht & Hpre & Hy & Hin & Hr).
    exists ((d0, sc0) :: pre), y, post.
    split; [now rewrite Ht | split; [|split; [exact Hy | split; [exact Hin | exact Hr]]]].
    constructor; [simpl; lra | exact Hpre].
Qed.

(** A disease all of whose symptoms are confirmed gets the match score 1,
    so the round's check stops the diagnosis for any threshold up to 1 (the
    default is 0.8): it stops at the first disease in catalog order whose
    score reaches the threshold, every disease before it scoring below,
    and that disease is the fully matched one or comes before it. *)
Theorem diagnosis_reached_full_match (cat : catalog) (current : list symptom)
  (d : string) (syms : list symptom) (threshold : R) :
  In (d, syms) cat -> syms <> [] -> incl syms current -> threshold <= 1 ->
  In (d, 1) (get_disease_match_scores cat current) /\
  exists pre d' sc post,
    get_disease_match_scores cat current = pre ++ (d', sc) :: post /\
    Forall (fun p => snd p < threshold) pre /\ threshold <= sc /\
    In (d, 1) ((d', sc) :: post) /\
    diagnosis_reached threshold (get_disease_match_scores cat current) = Some (d', sc).
Proof.
  intros Hin Hne Hinc Ht.
  assert (Hx : In (d, 1) (get_disease_match_scores cat current)).
  { apply in_map_iff. exists (d, syms). split; [|exact Hin]. simpl.
    rewrite (match_rate_full current syms Hne Hinc). reflexivity. }
  split; [exact Hx|].
  destruct (diagnosis_reached_first threshold _ (d, 1) Hx Ht)
    as (pre & [d' sc] & post & Hs & Hpre & Hy & Hin' & Hr).
  now exists pre, d', sc, post.
Qed.

(** ** Concrete instances of the hypotheses above *)

Lemma information_gain_no_split_witness :
  example_catalog <> [] /\
  Forall (fun c => map (fun s => mem s (snd c)) [] = []) example_catalog /\
  calculate_total_information_gain [] example_catalog = log2 (INR (length example_catalog)).
Proof.
  assert (H1 : example_catalog <> []) by discriminate.
  assert (H2 : Forall (fun c => map (fun s => mem s (snd c)) [] = []) example_catalog)
    by (repeat constructor).
  split; [exact H1 | split; [exact H2|]].
  exact (information_gain_no_split [] example_catalog [] H1 H2).
Defined.

Lemma information_gain_full_split_witness :
  example_catalog <> [] /\
  NoDup (map (fun c => map (fun s => mem s (snd c)) ["x"; "y"]) example_catalog) /\
  calculate_total_information_gain ["x"; "y"] example_catalog = ok 0.
Proof.
  assert (H1 : example_catalog <> []) by discriminate.
  assert (H2 : NoDup (map (fun c => map (fun s => mem s (snd c)) ["x"; "y"]) example_catalog))
    by (vm_compute; repeat constructor; simpl; intuition discriminate).
  split; [exact H1 | split; [exact H2|]].
  exact (information_gain_full_split ["x"; "y"] example_catalog H1 H2).
Defined.

Lemma mutate_keeps_size_witness :
  well_sized 1 ["x"; "y"] ["x"] /\
  match mutate (G:=nat) ["x"] ["x"; "y"] (1/10) 0%nat with
  | inl _ => True
  | inr (ind', _) => well_sized 1 ["x"; "y"] ind'
  end.
Proof.
  assert (Hw : well_sized 1 ["x"; "y"] ["x"]).
  { split; [repeat constructor; intros []|split; [reflexivity|]].
    intros s [<-|[]]. now left. }
  split; [exact Hw|]. exact (mutate_keeps_size 1 ["x"; "y"] ["x"] (1/10) 0%nat Hw).
Defined.

Lemma local_search_keeps_size_witness :
  well_sized 1 (set_diff (all_symptoms example_catalog) ["x"]) ["y"] /\
  match local_search (G:=nat) example_catalog ["x"]
          (get_candidate_diseases example_catalog ["x"]) ["y"] 0%nat with
  | inl _ => True
  | inr (ind', _) => well_sized 1 (set_diff (all_symptoms example_catalog) ["x"]) ind'
  end.
Proof.
  assert (Hw : well_sized 1 (set_diff (all_symptoms example_catalog) ["x"]) ["y"]).
  { split; [repeat constructor; intros []|split; [reflexivity|]].
    intros s [<-|[]]. vm_compute. now left. }
  split; [exact Hw|].
  exact (local_search_keeps_size example_catalog ["x"] (get_candidate_diseases example_catalog ["x"])
           1 ["y"] 0%nat Hw).
Defined.

Lemma greedy_selection_size_witness :
  NoDup ["y"; "z"; "w"] /\ (0 <= 2 <= Z.of_nat (length ["y"; "z"; "w"]))%Z /\
  match greedy_selection example_catalog ["x"] (get_candidate_diseases example_catalog ["x"])
          ["z"] ["y"; "z"; "w"] 2 with
  | inl _ => True
  | inr p => well_sized (Z.to_nat 2) ["y"; "z"; "w"] p
  end.
Proof.
  assert (H1 : NoDup ["y"; "z"; "w"]) by (repeat constructor; simpl; intuition discriminate).
  assert (H2 : (0 <= 2 <= Z.of_nat (length ["y"; "z"; "w"]))%Z) by (simpl; lia).
  split; [exact H1 | split; [exact H2|]].
  exact (greedy_selection_size example_catalog ["x"] (get_candidate_diseases example_catalog ["x"])
           ["z"] ["y"; "z"; "w"] 2 H1 H2).
Defined.

Lemma exhaustive_search_size_witness :
  NoDup ["y"; "z"; "w"] /\ (1 <= 2 <= Z.of_nat (length ["y"; "z"; "w"]))%Z /\
  match exhaustive_search example_catalog ["x"] (get_candidate_diseases example_catalog ["x"])
          ["z"] ["y"; "z"; "w"] 2 with
  | inl _ => True
  | inr p => well_sized (Z.to_nat 2) ["y"; "z"; "w"] p
  end.
Proof.
  assert (H1 : NoDup ["y"; "z"; "w"]) by (repeat constructor; simpl; intuition discriminate).
  assert (H2 : (1 <= 2 <= Z.of_nat (length ["y"; "z"; "w"]))%Z) by (simpl; lia).
  split; [exact H1 | split; [exact H2|]].
  exact (exhaustive_search_size example_catalog ["x"] (get_candidate_diseases example_catalog ["x"])
           ["z"] ["y"; "z"; "w"] 2 H1 H2).
Defined.

Lemma exhaustive_search_too_many_witness :
  (Z.of_nat (length ["y"; "z"; "w"]) < 4)%Z /\
  match exhaustive_search example_catalog ["x"] (get_candidate_diseases example_catalog ["x"])
          [] ["y"; "z"; "w"] 4 with
  | inl _ => True
  | inr p => p = []
  end.
Proof.
  assert (H : (Z.of_nat (length ["y"; "z"; "w"]) < 4)%Z) by (simpl; lia).
  split; [exact H|].
  exact (exhaustive_search_too_many example_catalog ["x"] (get_candidate_diseases example_catalog ["x"])
           [] ["y"; "z"; "w"] 4 H).
Defined.

Lemma answer_after_comma_space_denied_witness :
  ~ In ","%char (list_ascii_of_string "x") /\ ~ In ","%char (list_ascii_of_string "y") /\
  "y" <> "x" /\ In "y" ["x"; "y"] /\ ~ In "y" [] /\
  (let '(cur', den') :=
     record_answers ["x"; "y"] (parse_confirmed (fun _ => false) ("x" ++ ", " ++ "y")%string) ([], []) in
   In "y" den' /\ ~ In "y" cur').
Proof.
  assert (H1 : ~ In ","%char (list_ascii_of_string "x")) by (simpl; intros [H|[]]; discriminate).
  assert (H2 : ~ In ","%char (list_ascii_of_string "y")) by (simpl; intros [H|[]]; discriminate).
  assert (H3 : "y" <> "x") by discriminate.
  assert (H4 : In "y" ["x"; "y"]) by (right; left; reflexivity).
  assert (H5 : ~ In "y" []) by (intros []).
  split; [exact H1 | split; [exact H2 | split; [exact H3 | split; [exact H4 | split; [exact H5|]]]]].
  exact (answer_after_comma_space_denied (fun _ => false) "x" "y" ["x"; "y"] [] [] H1 H2 H3 H4 H5).
Defined.

Lemma diagnosis_reached_full_match_witness :
  In ("A", ["x"; "y"]) example_catalog /\ ["x"; "y"] <> [] /\ incl ["x"; "y"] ["x"; "y"] /\
  8/10 <= 1 /\
  In ("A", 1) (get_disease_match_scores example_catalog ["x"; "y"]) /\
  exists pre d' sc post,
    get_disease_match_scores example_catalog ["x"; "y"] = pre ++ (d', sc) :: post /\
    Forall (fun p => snd p < 8/10) pre /\ 8/10 <= sc /\
    In ("A", 1) ((d', sc) :: post) /\
    diagnosis_reached (8/10) (get_disease_match_scores example_catalog ["x"; "y"]) = Some (d', sc).
Proof.
  assert (H1 : In ("A", ["x"; "y"]) example_catalog) by (left; reflexivity).
  assert (H2 : ["x"; "y"] <> []) by discriminate.
  assert (H3 : incl ["x"; "y"] ["x"; "y"]) by apply incl_refl.
  assert (H4 : 8/10 <= 1) by lra.
  split; [exact H1 | split; [exact H2 | split; [exact H3 | split; [exact H4|]]]].
  exact (diagnosis_reached_full_match example_catalog ["x"; "y"] "A" ["x"; "y"] (8/10) H1 H2 H3 H4).
Defined.
